(** * sql/uniques.cc: duplicate elimination with spill-to-disk runs

    A shallow embedding of [Unique] (the bounded tree, [flush], [get]) and of
    the cost estimator ([log2_n_fact], [get_merge_buffers_cost],
    [get_merge_many_buffs_cost], [Unique::get_use_cost]).

    Conventions.
    - Keys are opaque fixed-size records; only the comparator and the
      merge's own comparison look at them, so a key is a value of an
      abstract type [K] and the temp
      store is a sequence of keys whose byte position is
      [size * number of keys].
    - The C [double] arithmetic of the estimator is idealised as exact
      real arithmetic ([R]); [log] is [ln], [M_PI] is [PI], [M_E] is
      [exp 1] and [M_LN2] is [ln 2].
    - The failures of the environment (a failing [my_b_write], a failing
      allocation) are inputs of the operations. *)

From Stdlib Require Import ZArith List Bool Lia Sorted.
From Stdlib Require Import Reals Lra Zfloor.
Import ListNotations.

Local Open Scope Z_scope.

(** ** Machine integers *)

(** [uint] is 32 bits wide; a value converted to [uint] wraps. *)
Definition uint (x : Z) : Z := x mod 2 ^ 32.

(** Conversion of a [uint] to [int] (two's complement). *)
Definition int_of_uint (x : Z) : Z :=
  if uint x <? 2 ^ 31 then uint x else uint x - 2 ^ 32.

(** [ulong] arithmetic, 64 bits wide (LP64). *)
Definition ulong (x : Z) : Z := x mod 2 ^ 64.

(** [sizeof(uint)]: the stride of a [uint *]. *)
Definition sizeof_uint : Z := 4.

(** [MY_ALIGN(A, sizeof(double))]: round up to a multiple of 8. *)
Definition ALIGN_SIZE (a : Z) : Z := Z.land (a + 7) (Z.lnot 7).

(** The values the header macros have in the MySQL tree this file belongs
    to ([my_global.h], [sql_sort.h], [mysql_priv.h], [my_tree.h] on LP64).
    The development is parametric in them; these are used to instantiate
    it on concrete inputs. *)
Definition mysql_IO_SIZE : Z := 4096.
Definition mysql_MERGEBUFF : Z := 7.
Definition mysql_MERGEBUFF2 : Z := 15.
Definition mysql_TIME_FOR_COMPARE_ROWID : R := 10%R.
Definition mysql_DISK_SEEK_BASE_COST : R := (1 / 2)%R.
Definition mysql_sizeof_TREE_ELEMENT : Z := 24.

(** [ceil] of a double. *)
Definition ceil (x : R) : R := IZR (Zceil x).

Section Uniques.

(** ** Keys and the comparator *)

(** The key type and the caller's [qsort_cmp2] (the fixed argument is
    part of the function). *)
Variable K : Type.
Variable cmp : K -> K -> Z.

(** Modelled from the spec: the key comparison of the merge primitive
    ([merge_many_buff] and [merge_buffers], [filesort.cc], absent).
    [Unique::get] hands the merge a zeroed [SORTPARAM] in which it sets
    the key length ([rec_length], [sort_length], [ref_length]), [keys],
    [max_rows] and [not_killable]: the caller's comparator is not among
    what the merge receives, so the order in which it merges, and the
    equality by which it suppresses duplicates, are its own. *)
Variable ptr_compare : K -> K -> Z.

(** ** Header constants used by the source *)

Variable IO_SIZE : Z.
Variable MERGEBUFF : Z.
Variable MERGEBUFF2 : Z.
Variable TIME_FOR_COMPARE_ROWID : R.
Variable DISK_SEEK_BASE_COST : R.
Variable sizeof_TREE_ELEMENT : Z.

(** ** The ordered container (mysys TREE) *)

(** Modelled from the spec: the ordered container of [my_tree.h] /
    [tree.c] is absent.  It holds distinct keys in ascending comparator
    order; inserting a key equal to a stored one changes nothing. *)
Definition TREE : Type := list K.

Fixpoint tree_insert (k : K) (t : TREE) : TREE :=
  match t with
  | [] => [k]
  | x :: t' =>
      if cmp k x <? 0 then k :: x :: t'
      else if cmp k x =? 0 then x :: t'
      else x :: tree_insert k t'
  end.

Definition elements_in_tree (t : TREE) : Z := Z.of_nat (length t).

(** [tree_walk(..., left_root_right)]: visit the keys in ascending order;
    stop at the first action that reports an error. *)
Fixpoint tree_walk {S : Type} (action : K -> S -> bool * S) (t : TREE) (s : S)
  : bool * S :=
  match t with
  | [] => (false, s)
  | k :: t' =>
      let (err, s') := action k s in
      if err then (true, s') else tree_walk action t' s'
  end.

(** ** The temp store (IO_CACHE) *)

(** The keys written so far, and the number of [my_b_write] calls issued
    (successful or not). *)
Record IO_CACHE : Type := mkCache {
  contents : list K;
  write_calls : nat
}.

Definition my_b_clear : IO_CACHE := mkCache [] 0.

(** [disk n] tells whether the [n]-th write issued to the temp store
    succeeds. *)
Definition my_b_write (disk : nat -> bool) (f : IO_CACHE) (k : K)
  : bool * IO_CACHE :=
  if disk (write_calls f)
  then (false, mkCache (contents f ++ [k]) (S (write_calls f)))
  else (true, mkCache (contents f) (S (write_calls f))).

(** ** Unique *)

Record BUFFPEK : Type := mkBuffpek {
  file_pos : Z;
  count : Z
}.

(** The instance.  [elements] and the run counts are counters that do
    not wrap for any store that fits the address space; they are kept
    as unbounded integers. *)
Record Unique : Type := mkUnique {
  max_in_memory_size : Z;
  size : Z;
  elements : Z;
  max_elements : Z;
  tree : TREE;
  file_ptrs : list BUFFPEK;
  file : IO_CACHE
}.

Definition my_b_tell (u : Unique) : Z :=
  size u * Z.of_nat (length (contents (file u))).

(** [Unique::Unique] *)
Definition Unique_new (size_arg max_in_memory_size_arg : Z) : Unique :=
  {| max_in_memory_size := max_in_memory_size_arg;
     size := size_arg;
     elements := 0;
     max_elements :=
       max_in_memory_size_arg / ALIGN_SIZE (sizeof_TREE_ELEMENT + size_arg);
     tree := [];
     file_ptrs := [];
     file := my_b_clear |}.

(** [unique_write_to_file] *)
Definition unique_write_to_file (disk : nat -> bool) (key : K) (f : IO_CACHE)
  : bool * IO_CACHE :=
  my_b_write disk f key.

(** [unique_write_to_ptrs]: copy the key at the cursor and advance it. *)
Definition unique_write_to_ptrs (key : K) (region : list K)
  : bool * list K :=
  (false, region ++ [key]).

(** [Unique::flush].  [dyn_ok] tells whether [insert_dynamic] succeeds.
    The result's first component is the returned error flag. *)
Definition flush (disk : nat -> bool) (dyn_ok : bool) (u : Unique)
  : bool * Unique :=
  let n := elements_in_tree (tree u) in
  let elements' := elements u + n in
  let file_ptr := mkBuffpek (my_b_tell u) n in
  let (werr, f') := tree_walk (unique_write_to_file disk) (tree u) (file u) in
  if werr || negb dyn_ok
  then (true,
        {| max_in_memory_size := max_in_memory_size u; size := size u;
           elements := elements'; max_elements := max_elements u;
           tree := tree u; file_ptrs := file_ptrs u; file := f' |})
  else (false,
        {| max_in_memory_size := max_in_memory_size u; size := size u;
           elements := elements'; max_elements := max_elements u;
           tree := []; file_ptrs := file_ptrs u ++ [file_ptr]; file := f' |}).

(** ** The external multi-way merge *)

(** The keys of the run a descriptor points at. *)
Definition read_run (sz : Z) (store : list K) (p : BUFFPEK) : list K :=
  firstn (Z.to_nat (count p)) (skipn (Z.to_nat (file_pos p / sz)) store).

(** Two-way merge of sequences, by the merge's own comparison. *)
Fixpoint merge2 (a : list K) : list K -> list K :=
  match a with
  | [] => fun b => b
  | x :: a' =>
      fix into (b : list K) : list K :=
        match b with
        | [] => x :: a'
        | y :: b' =>
            if ptr_compare x y <=? 0 then x :: merge2 a' (y :: b')
            else y :: into b'
        end
  end.

(** Drop every key that the merge's comparison finds equal to the last
    key kept. *)
Fixpoint skip_dups (prev : K) (l : list K) : list K :=
  match l with
  | [] => []
  | x :: l' =>
      if ptr_compare prev x =? 0 then skip_dups prev l'
      else x :: skip_dups x l'
  end.

Definition suppress_adjacent (l : list K) : list K :=
  match l with
  | [] => []
  | x :: l' => x :: skip_dups x l'
  end.

(** Modelled from the spec: [merge_many_buff] and [merge_buffers]
    ([filesort.cc]) are absent.  Per the interface contract, given the
    run descriptors over the temp store they read all runs, produce a
    single ascending sequence and suppress adjacent duplicate keys;
    ascending and duplicate are meant by [ptr_compare], the only
    comparison the merge has. *)
Definition merge_runs (sz : Z) (store : list K) (ptrs : list BUFFPEK)
  : list K :=
  suppress_adjacent (fold_right merge2 [] (map (read_run sz store) ptrs)).

(** ** Unique::get *)

(** What [get] leaves in [table->sort]: the record count, the flat region
    (its allocated byte size and the keys copied into it) and the output
    stream. *)
Record FILESORT_INFO : Type := mkSort {
  found_records : Z;
  record_pointers : option (Z * list K);
  io_cache : option (list K)
}.

(** The outcomes of the fallible steps of one [get] call. *)
Record get_env : Type := mkEnv {
  flat_alloc_ok : bool;
  insert_dynamic_ok : bool;
  outfile_ok : bool;
  sort_buffer_ok : bool;
  merge_many_buff_ok : bool;
  file_reinit_ok : bool;
  merge_buffers_ok : bool;
  outfile_flush_ok : bool;
  outfile_reinit_ok : bool
}.

(** [Unique::get].  The first component is the returned error flag. *)
Definition get (disk : nat -> bool) (e : get_env) (u : Unique)
  : bool * Unique * FILESORT_INFO :=
  let found := elements u + elements_in_tree (tree u) in
  if (my_b_tell u =? 0) && flat_alloc_ok e then
    (* Whole tree is in memory *)
    let region := snd (tree_walk unique_write_to_ptrs (tree u) []) in
    (false, u,
     mkSort found (Some (size u * elements_in_tree (tree u), region)) None)
  else
    (* Not enough memory; Save the result to file *)
    let (ferr, u1) := flush disk (insert_dynamic_ok e) u in
    if ferr then (true, u1, mkSort found None None)
    else if negb (outfile_ok e) then (true, u1, mkSort found None None)
    else if negb (sort_buffer_ok e) then (true, u1, mkSort found None (Some []))
    else
      let merged :=
        merge_many_buff_ok e && file_reinit_ok e && merge_buffers_ok e in
      let out :=
        if merged
        then merge_runs (size u1) (contents (file u1)) (file_ptrs u1)
        else [] in
      let error :=
        negb merged || negb (outfile_flush_ok e) || negb (outfile_reinit_ok e) in
      (error, u1, mkSort found None (Some out)).

(** The key sequence a caller reads back after [get]. *)
Definition sort_result (t : FILESORT_INFO) : list K :=
  match io_cache t, record_pointers t with
  | Some out, _ => out
  | None, Some (_, region) => region
  | None, None => []
  end.

(** ** Operation sequences on one instance *)

Inductive op : Type :=
  | OpInsert (k : K)
  | OpFlush (dyn_ok : bool).

Definition set_tree (u : Unique) (t : TREE) : Unique :=
  {| max_in_memory_size := max_in_memory_size u; size := size u;
     elements := elements u; max_elements := max_elements u;
     tree := t; file_ptrs := file_ptrs u; file := file u |}.

Definition step (disk : nat -> bool) (u : Unique) (o : op) : bool * Unique :=
  match o with
  | OpInsert k => (false, set_tree u (tree_insert k (tree u)))
  | OpFlush dyn_ok => flush disk dyn_ok u
  end.

(** Run a sequence of operations; the flag tells whether any of them
    reported failure. *)
Fixpoint run (disk : nat -> bool) (ops : list op) (u : Unique)
  : bool * Unique :=
  match ops with
  | [] => (false, u)
  | o :: rest =>
      let (e1, u1) := step disk u o in
      let (e2, u2) := run disk rest u1 in
      (e1 || e2, u2)
  end.

Definition inserted (ops : list op) : list K :=
  flat_map (fun o => match o with OpInsert k => [k] | OpFlush _ => [] end) ops.

(** ** Properties of the Run Directory *)

Fixpoint sum_counts (d : list BUFFPEK) : Z :=
  match d with
  | [] => 0
  | p :: d' => count p + sum_counts d'
  end.

(** Each run ends at or before the offset of the next one. *)
Fixpoint non_overlapping (sz : Z) (d : list BUFFPEK) : Prop :=
  match d with
  | [] => True
  | p :: d' =>
      match d' with
      | [] => True
      | q :: _ => file_pos p + sz * count p <= file_pos q
      end /\ non_overlapping sz d'
  end.

Fixpoint offsets_increasing (d : list BUFFPEK) : Prop :=
  match d with
  | [] => True
  | p :: d' =>
      match d' with
      | [] => True
      | q :: _ => file_pos p < file_pos q
      end /\ offsets_increasing d'
  end.

(** The number of stored keys that compare equal to [k]. *)
Definition occurrences (k : K) (l : list K) : nat :=
  length (filter (fun e => cmp e k =? 0) l).

Definition ascending (l : list K) : Prop :=
  StronglySorted (fun x y => cmp x y < 0) l.

(** ** The cost estimator *)

(** [log2_n_fact]: Stirling's approximation of log2(x!). *)
Definition log2_n_fact (x : R) : R :=
  ((ln (2 * PI * x) / 2 + x * ln (x / exp 1)) / ln 2)%R.

(** The scratch buffer [uint *buffer]: a [uint] per index. *)
Definition store (b : Z -> Z) (i v : Z) : Z -> Z :=
  fun j => if j =? i then v else b j.

(** [for (pbuf= first; pbuf <= last; pbuf++) total_buf_elems+= *pbuf;] *)
Fixpoint sum_elems (b : Z -> Z) (first : Z) (n : nat) (acc : Z) : Z :=
  match n with
  | O => acc
  | S n' => sum_elems b (first + 1) n' (uint (acc + b first))
  end.

(** [get_merge_buffers_cost]: the cost of merging the sequences
    [first..last], and the buffer after [*last= total_buf_elems].  The
    [output_buff] argument is not used by the function body. *)
Definition get_merge_buffers_cost (buff_elems : Z -> Z) (elem_size : Z)
  (first last : Z) : R * (Z -> Z) :=
  let total_buf_elems :=
    sum_elems buff_elems first (Z.to_nat (last - first + 1)) 0 in
  let n_buffers := last - first + 1 in
  ((2 * (IZR total_buf_elems * IZR elem_size) / IZR IO_SIZE
    + IZR total_buf_elems * ln (IZR n_buffers)
      / (TIME_FOR_COMPARE_ROWID * ln 2))%R,
   store buff_elems last total_buf_elems).

(** The local state of [get_merge_many_buffs_cost].  [lastbuff] is a
    [uint *]: its value is an address. *)
Record sim : Type := mkSim {
  total_cost : R;
  buff_elems : Z -> Z;
  lastbuff : Z;
  maxbuffer : Z
}.

(** [total_cost+= get_merge_buffers_cost(buff_elems, elem_size,
    lastbuff++, first, last)] *)
Definition collapse (elem_size : Z) (st : sim) (first last : Z) : sim :=
  let (c, b) :=
    get_merge_buffers_cost (buff_elems st) (uint elem_size) first last in
  mkSim (total_cost st + c)%R b (lastbuff st + sizeof_uint) (maxbuffer st).

(** [(int) maxbuffer - MERGEBUFF*3/2], the bound of the [for] loop.
    [MERGEBUFF*3/2] is a non-negative [int] constant of the header, so
    for a non-negative [(int) maxbuffer] the difference is an [int].
    For a negative one (a [maxbuffer] above [INT_MAX]) the difference
    can fall below [INT_MIN]: that is signed overflow, for which the
    language defines no behaviour, and there is no value. *)
Definition loop_bound (maxbuffer0 : Z) : option Z :=
  let m := int_of_uint maxbuffer0 in
  if (m <? 0) && (m - MERGEBUFF * 3 / 2 <? - 2 ^ 31) then None
  else Some (m - MERGEBUFF * 3 / 2).

(** [for (i = 0; i <= (int) maxbuffer - MERGEBUFF*3/2; i += MERGEBUFF)];
    returns the final [i].  There is no result when the bound has no
    value.  The increment of [i] is exact: [i] is at most the bound
    when it is incremented, and [MERGEBUFF <= MERGEBUFF*3/2]. *)
Fixpoint merge_groups (fuel : nat) (elem_size : Z) (i : Z) (st : sim)
  : option (Z * sim) :=
  match fuel with
  | O => None
  | S fuel' =>
      match loop_bound (maxbuffer st) with
      | None => None
      | Some bound =>
          if i <=? bound
          then merge_groups fuel' elem_size (i + MERGEBUFF)
                 (collapse elem_size st i (i + MERGEBUFF - 1))
          else Some (i, st)
      end
  end.

(** One iteration of the [while] body. *)
Definition merge_pass (fuel : nat) (elem_size : Z) (st : sim) : option sim :=
  let st0 := mkSim (total_cost st) (buff_elems st) 0 (maxbuffer st) in
  match merge_groups fuel elem_size 0 st0 with
  | None => None
  | Some (i, st1) =>
      let st2 := collapse elem_size st1 i (maxbuffer st1) in
      Some (mkSim (total_cost st2) (buff_elems st2) (lastbuff st2)
              (uint (lastbuff st2 - 1)))
  end.

(** [while (maxbuffer >= MERGEBUFF2)] *)
Fixpoint merge_passes (fuel : nat) (elem_size : Z) (st : sim) : option sim :=
  match fuel with
  | O => None
  | S fuel' =>
      if MERGEBUFF2 <=? maxbuffer st
      then match merge_pass fuel elem_size st with
           | None => None
           | Some st' => merge_passes fuel' elem_size st'
           end
      else Some st
  end.

(** The initial state: the first [maxbuffer] sequences hold
    [max_n_elems] elements each, the last one [last_n_elems]. *)
Fixpoint fill (b : Z -> Z) (v : Z) (n : nat) : Z -> Z :=
  match n with
  | O => b
  | S n' => store (fill b v n') (Z.of_nat n') v
  end.

Definition sim_init (buffer : Z -> Z) (maxbuffer0 max_n_elems last_n_elems : Z)
  : sim :=
  mkSim 0%R
    (store (fill buffer max_n_elems (Z.to_nat (int_of_uint maxbuffer0)))
       maxbuffer0 last_n_elems)
    0 maxbuffer0.

(** [get_merge_many_buffs_cost], called with [maxbuffer0] as its
    [maxbuffer] argument; [None] when [fuel] loop iterations do not
    suffice or the loop bound has no value. *)
Definition get_merge_many_buffs_cost (fuel : nat) (buffer : Z -> Z)
  (maxbuffer0 max_n_elems last_n_elems elem_size : Z) : option R :=
  match merge_passes fuel elem_size
          (sim_init buffer maxbuffer0 max_n_elems last_n_elems) with
  | None => None
  | Some st =>
      Some (total_cost (collapse elem_size st 0 (maxbuffer st)))
  end.

(** Cost of creating the trees (the first part of [get_use_cost]). *)
Definition create_trees_cost (n_full_trees max_elements_in_tree
  last_tree_elems : Z) : R :=
  let result := (2 * log2_n_fact (IZR last_tree_elems + 1))%R in
  let result :=
    if n_full_trees =? 0 then result
    else (result
          + IZR n_full_trees * log2_n_fact (IZR max_elements_in_tree + 1))%R in
  (result / TIME_FOR_COMPARE_ROWID)%R.

(** Cost of writing all trees to disk (the two [result +=] statements
    after the early return).  [key_size*max_elements_in_tree / IO_SIZE]
    is an integer expression: the quotient is taken before [ceil] sees
    it. *)
Definition write_trees_cost (n_full_trees max_elements_in_tree
  last_tree_elems key_size : Z) : R :=
  (DISK_SEEK_BASE_COST * IZR n_full_trees
     * ceil (IZR (ulong (key_size * max_elements_in_tree) / IO_SIZE))
   + DISK_SEEK_BASE_COST
     * ceil (IZR (ulong (key_size * last_tree_elems) / IO_SIZE)))%R.

Definition max_elements_in_tree (key_size max_in_memory_size : Z) : Z :=
  max_in_memory_size / ALIGN_SIZE (sizeof_TREE_ELEMENT + key_size).

(** [Unique::get_use_cost].  [None] stands for the undefined integer
    division by zero, and for a merge simulation without a value: an
    overflowing bound of its [for] loop (or an exhausted number of
    iterations; the simulation is given the run count plus two). *)
Definition get_use_cost (buffer : Z -> Z) (nkeys key_size
  max_in_memory_size : Z) : option R :=
  let max_elems := max_elements_in_tree key_size max_in_memory_size in
  if max_elems =? 0 then None
  else
    let n_full_trees := int_of_uint (nkeys / max_elems) in
    let last_tree_elems := nkeys mod max_elems in
    let result := create_trees_cost n_full_trees max_elems last_tree_elems in
    if n_full_trees =? 0 then Some result
    else
      let result :=
        (result
         + write_trees_cost n_full_trees max_elems last_tree_elems key_size)%R in
      match get_merge_many_buffs_cost
              (S (S (Z.to_nat (uint n_full_trees)))) buffer
              (uint n_full_trees) (uint max_elems) (uint last_tree_elems)
              (int_of_uint key_size) with
      | None => None
      | Some merge_cost =>
          if Rlt_dec merge_cost 0 then Some merge_cost
          else Some (result + merge_cost
                     + ceil (IZR key_size * IZR nkeys / IZR IO_SIZE))%R
      end.

(** ** The estimator as the specification words it *)

(** The tree-build term as the specification states it: twice
    log2((N+1)!) for every run, full or not. *)
Definition create_trees_cost_spec (n_full_trees max_elements_in_tree
  last_tree_elems : Z) : R :=
  ((IZR n_full_trees * (2 * log2_n_fact (IZR max_elements_in_tree + 1))
    + 2 * log2_n_fact (IZR last_tree_elems + 1))
   / TIME_FOR_COMPARE_ROWID)%R.

(** The write term as the specification states it: the ceiling of the
    exact quotient, per run. *)
Definition write_trees_cost_spec (n_full_trees max_elements_in_tree
  last_tree_elems key_size : Z) : R :=
  (IZR n_full_trees
     * ceil (IZR (key_size * max_elements_in_tree) / IZR IO_SIZE)
   + ceil (IZR (key_size * last_tree_elems) / IZR IO_SIZE))%R.

(** ** Auxiliary notions used in the statements and proofs *)

(** The run count the code continues with after one pass over [m + 1]
    runs: [maxbuffer= (uint)lastbuff-1], where [lastbuff] has advanced
    by one stride per collapse.  It has no value when the loop bound has
    none. *)
Definition next_maxbuffer (m : Z) : option Z :=
  match loop_bound m with
  | None => None
  | Some bound =>
      Some (if 0 <=? bound
            then uint (sizeof_uint * (bound / MERGEBUFF + 2) - 1)
            else uint (sizeof_uint - 1))
  end.

(** The directory that describes the runs [rs] laid out back to back
    from byte position [pos]. *)
Fixpoint describe (sz pos : Z) (rs : list (list K)) : list BUFFPEK :=
  match rs with
  | [] => []
  | r :: rs' =>
      mkBuffpek pos (Z.of_nat (length r))
      :: describe sz (pos + sz * Z.of_nat (length r)) rs'
  end.

(** Ascending with ties allowed: what a merge of ascending runs yields
    before duplicates are suppressed. *)
Definition weakly_ascending (l : list K) : Prop :=
  StronglySorted (fun x y => cmp x y <= 0) l.

(** The directory invariant that survives failing operations: runs do
    not overlap and lie inside the written part of the temp store. *)
Definition directory_ok (sz : Z) (u : Unique) : Prop :=
  size u = sz
  /\ non_overlapping sz (file_ptrs u)
  /\ Forall (fun q => file_pos q + sz * count q <= my_b_tell u) (file_ptrs u).

(** The merge path: everything [get] does once the fast path is not
    taken. *)
Definition get_merge_path (disk : nat -> bool) (e : get_env) (u : Unique)
  : bool * Unique * FILESORT_INFO :=
  let found := elements u + elements_in_tree (tree u) in
  let u1 := snd (flush disk (insert_dynamic_ok e) u) in
  if fst (flush disk (insert_dynamic_ok e) u) then (true, u1, mkSort found None None)
  else if negb (outfile_ok e) then (true, u1, mkSort found None None)
  else if negb (sort_buffer_ok e) then (true, u1, mkSort found None (Some []))
  else
    let merged :=
      merge_many_buff_ok e && file_reinit_ok e && merge_buffers_ok e in
    (negb merged || negb (outfile_flush_ok e) || negb (outfile_reinit_ok e),
     u1,
     mkSort found None
       (Some (if merged
              then merge_runs (size u1) (contents (file u1)) (file_ptrs u1)
              else []))).

(** The invariant of a failure-free history: the tree and every run are
    ascending, the directory describes the runs back to back, and the
    tree and the runs together hold the inserted keys [ks]. *)
Definition runs_ok (sz : Z) (ks : list K) (u : Unique) : Prop :=
  size u = sz
  /\ ascending (tree u)
  /\ exists rs,
       contents (file u) = concat rs
       /\ file_ptrs u = describe sz 0 rs
       /\ Forall ascending rs
       /\ (forall x, In x (tree u) \/ In x (concat rs) -> In x ks)
       /\ (forall k, In k ks ->
             exists x, (In x (tree u) \/ In x (concat rs)) /\ cmp x k = 0).

(** The number of iterations of the [for] loop from [i] with bound [x]. *)
Definition iterations (i x : Z) : Z :=
  if i <=? x then (x - i) / MERGEBUFF + 1 else 0.

(** The cost of the single merge of [nkeys] elements in [n + 1] runs. *)
Definition final_merge_cost (nkeys n key_size : Z) : R :=
  (2 * (IZR nkeys * IZR key_size) / IZR IO_SIZE
   + IZR nkeys * ln (IZR (n - 0 + 1)) / (TIME_FOR_COMPARE_ROWID * ln 2))%R.

(** Every recorded run lies inside the written part of the temp store. *)
Definition runs_in_store (sz : Z) (u : Unique) : Prop :=
  size u = sz
  /\ Forall (fun q => 0 <= file_pos q /\ 0 <= count q
                      /\ file_pos q + sz * count q <= my_b_tell u)
       (file_ptrs u).

(** The runs of a failure-free history lie back to back from the start
    of the store, and [elements] counts the keys written. *)
Definition store_layout (sz : Z) (u : Unique) : Prop :=
  size u = sz
  /\ elements u = Z.of_nat (length (contents (file u)))
  /\ exists rs,
       contents (file u) = concat rs /\ file_ptrs u = describe sz 0 rs.

(** Two states of the merge simulation that differ at most in the
    scratch slots outside [0..top]. *)
Definition sim_agree (top : Z) (s1 s2 : sim) : Prop :=
  total_cost s1 = total_cost s2
  /\ lastbuff s1 = lastbuff s2
  /\ maxbuffer s1 = maxbuffer s2
  /\ forall j, 0 <= j <= top -> buff_elems s1 j = buff_elems s2 j.

(** * Proofs *)

(** ** Writing a tree to the temp store *)

Lemma tree_walk_cons {S : Type} (action : K -> S -> bool * S) (k : K)
  (t : TREE) (s : S) :
  tree_walk action (k :: t) s =
    if fst (action k s) then (true, snd (action k s))
    else tree_walk action t (snd (action k s)).
Proof. simpl; destruct (action k s) as [[|] s']; reflexivity. Qed.

Lemma write_to_file_eq (disk : nat -> bool) (k : K) (f : IO_CACHE) :
  unique_write_to_file disk k f =
    if disk (write_calls f)
    then (false, mkCache (contents f ++ [k]) (S (write_calls f)))
    else (true, mkCache (contents f) (S (write_calls f))).
Proof. reflexivity. Qed.

Lemma walk_to_file_contents (disk : nat -> bool) (t : TREE) (f : IO_CACHE) :
  exists written,
    contents (snd (tree_walk (unique_write_to_file disk) t f))
      = contents f ++ written
    /\ (fst (tree_walk (unique_write_to_file disk) t f) = false -> written = t).
Proof.
  revert f; induction t as [|k t IH]; intros f.
  - exists []; simpl; rewrite app_nil_r; auto.
  - rewrite tree_walk_cons.
    rewrite (write_to_file_eq disk k f).
    destruct (disk (write_calls f)); cbn [fst snd contents write_calls].
    + destruct (IH (mkCache (contents f ++ [k]) (S (write_calls f))))
        as (w & Hc & Hw); simpl in Hc.
      exists (k :: w); split.
      * rewrite Hc, <- app_assoc; reflexivity.
      * intros E; rewrite (Hw E); reflexivity.
    + exists []; rewrite app_nil_r; split; [reflexivity | discriminate].
Qed.

(** What [flush] does, case by case. *)
Lemma flush_cases (disk : nat -> bool) (dyn_ok : bool) (u : Unique) :
  let r := tree_walk (unique_write_to_file disk) (tree u) (file u) in
  flush disk dyn_ok u =
    if fst r || negb dyn_ok
    then (true, mkUnique (max_in_memory_size u) (size u)
                  (elements u + elements_in_tree (tree u)) (max_elements u)
                  (tree u) (file_ptrs u) (snd r))
    else (false, mkUnique (max_in_memory_size u) (size u)
                   (elements u + elements_in_tree (tree u)) (max_elements u)
                   [] (file_ptrs u
                       ++ [mkBuffpek (my_b_tell u) (elements_in_tree (tree u))])
                   (snd r)).
Proof.
  unfold flush; simpl.
  destruct (tree_walk (unique_write_to_file disk) (tree u) (file u)); reflexivity.
Qed.

(** A successful [flush] appended exactly the tree's keys. *)
Lemma flush_ok_inv (disk : nat -> bool) (dyn_ok : bool) (u u' : Unique) :
  flush disk dyn_ok u = (false, u') ->
  size u' = size u
  /\ elements u' = elements u + elements_in_tree (tree u)
  /\ tree u' = []
  /\ file_ptrs u'
     = file_ptrs u ++ [mkBuffpek (my_b_tell u) (elements_in_tree (tree u))]
  /\ contents (file u') = contents (file u) ++ tree u.
Proof.
  rewrite flush_cases; simpl.
  destruct (walk_to_file_contents disk (tree u) (file u)) as (w & Hc & Hw).
  destruct (fst (tree_walk (unique_write_to_file disk) (tree u) (file u)));
    simpl; [discriminate|].
  destruct dyn_ok; simpl; [|discriminate].
  intros E; injection E as <-; simpl.
  rewrite Hc, (Hw eq_refl); auto.
Qed.

(** A failed [flush] keeps the directory and the tree; the counter has
    already been advanced. *)
Lemma flush_failed_inv (disk : nat -> bool) (dyn_ok : bool) (u u' : Unique) :
  flush disk dyn_ok u = (true, u') ->
  size u' = size u
  /\ elements u' = elements u + elements_in_tree (tree u)
  /\ tree u' = tree u
  /\ file_ptrs u' = file_ptrs u
  /\ exists w, contents (file u') = contents (file u) ++ w.
Proof.
  rewrite flush_cases; simpl.
  destruct (walk_to_file_contents disk (tree u) (file u)) as (w & Hc & _).
  destruct (fst (tree_walk (unique_write_to_file disk) (tree u) (file u))
            || negb dyn_ok); [|discriminate].
  intros E; injection E as <-; simpl; eauto 6.
Qed.

(** ** The Run Directory *)

Lemma sum_counts_app (d : list BUFFPEK) (p : BUFFPEK) :
  sum_counts (d ++ [p]) = sum_counts d + count p.
Proof. induction d as [|q d IH]; simpl; lia. Qed.

Lemma non_overlapping_snoc (sz : Z) (d : list BUFFPEK) (p : BUFFPEK) :
  non_overlapping sz d ->
  Forall (fun q => file_pos q + sz * count q <= file_pos p) d ->
  non_overlapping sz (d ++ [p]).
Proof.
  induction d as [|q d IH]; simpl; intros Hn Hb; [auto|].
  destruct Hn as [Hq Hn]; inversion Hb as [|? ? Hq' Hb']; subst.
  split; [|auto].
  destruct d as [|q2 d]; simpl; auto.
Qed.

Lemma non_overlapping_increasing (sz : Z) (d : list BUFFPEK) :
  0 < sz ->
  non_overlapping sz d ->
  Forall (fun p => 0 < count p) d ->
  offsets_increasing d.
Proof.
  intros Hsz; induction d as [|p d IH]; simpl; intros Hn Hc; [auto|].
  destruct Hn as [Hp Hn]; inversion Hc as [|? ? Hp' Hc']; subst.
  split; [|auto].
  destruct d as [|q d]; [auto|]. nia.
Qed.

Lemma directory_ok_step (disk : nat -> bool) (sz : Z) (u : Unique) (o : op) :
  0 < sz -> directory_ok sz u -> directory_ok sz (snd (step disk u o)).
Proof.
  intros Hsz (Hs & Hn & Hb).
  destruct o as [k|dyn_ok]; simpl; [repeat split; auto|].
  destruct (flush disk dyn_ok u) as [[|] u'] eqn:E; simpl.
  - apply flush_failed_inv in E as (E1 & _ & _ & E4 & w & E5).
    repeat split; [congruence | rewrite E4; auto |].
    rewrite E4; eapply Forall_impl; [|exact Hb].
    intros q Hq; unfold my_b_tell in *; rewrite E1, E5, length_app, Hs in *; nia.
  - apply flush_ok_inv in E as (E1 & _ & _ & E4 & E5).
    assert (Ht : my_b_tell u' = my_b_tell u + sz * elements_in_tree (tree u)).
    { unfold my_b_tell, elements_in_tree; rewrite E1, E5, length_app, Hs; lia. }
    repeat split; [congruence | |]; rewrite E4.
    + apply non_overlapping_snoc; auto.
    + apply Forall_app; split.
      * eapply Forall_impl; [|exact Hb]; intros q Hq; simpl in *.
        unfold elements_in_tree in Ht; nia.
      * constructor; [simpl; lia | constructor].
Qed.

Lemma directory_ok_run (disk : nat -> bool) (sz : Z) (ops : list op) (u : Unique) :
  0 < sz -> directory_ok sz u -> directory_ok sz (snd (run disk ops u)).
Proof.
  intros Hsz; revert u; induction ops as [|o ops IH]; intros u Hu; simpl; auto.
  pose proof (directory_ok_step disk sz u o Hsz Hu) as Hs.
  destruct (step disk u o) as [e1 u1]; simpl in Hs.
  specialize (IH u1 Hs).
  destruct (run disk ops u1) as [e2 u2]; auto.
Qed.

Lemma counter_ok_run (disk : nat -> bool) (ops : list op) (u : Unique) :
  sum_counts (file_ptrs u) = elements u ->
  fst (run disk ops u) = false ->
  sum_counts (file_ptrs (snd (run disk ops u))) = elements (snd (run disk ops u)).
Proof.
  revert u; induction ops as [|o ops IH]; intros u Hu; simpl; auto.
  destruct (step disk u o) as [e1 u1] eqn:E1.
  specialize (IH u1).
  destruct (run disk ops u1) as [e2 u2]; simpl in *.
  intros E; apply orb_false_iff in E as [-> ->].
  apply IH; auto.
  destruct o as [k|dyn_ok]; simpl in E1.
  - injection E1 as <-; auto.
  - apply flush_ok_inv in E1 as (_ & E2 & _ & E4 & _).
    rewrite E4, E2, sum_counts_app; simpl; lia.
Qed.

(** ** The two paths of [get] *)

Lemma walk_to_ptrs (t : TREE) (region : list K) :
  tree_walk unique_write_to_ptrs t region = (false, region ++ t).
Proof.
  revert region; induction t as [|k t IH]; intros region; simpl.
  - rewrite app_nil_r; reflexivity.
  - rewrite IH, <- app_assoc; reflexivity.
Qed.

Lemma get_fast_path (disk : nat -> bool) (e : get_env) (u : Unique) :
  my_b_tell u = 0 ->
  flat_alloc_ok e = true ->
  get disk e u =
    (false, u,
     mkSort (elements u + elements_in_tree (tree u))
       (Some (size u * elements_in_tree (tree u), tree u)) None).
Proof.
  intros Ht Ha; unfold get.
  rewrite Ht, Ha, walk_to_ptrs; reflexivity.
Qed.

Lemma get_slow_path (disk : nat -> bool) (e : get_env) (u : Unique) :
  (my_b_tell u =? 0) && flat_alloc_ok e = false ->
  get disk e u = get_merge_path disk e u.
Proof.
  intros H; unfold get, get_merge_path; rewrite H.
  destruct (flush disk (insert_dynamic_ok e) u) as [[|] u1]; reflexivity.
Qed.

(** The state after insertions only. *)
Lemma run_inserts (disk : nat -> bool) (ks : list K) (u : Unique) :
  fst (run disk (map OpInsert ks) u) = false
  /\ file_ptrs (snd (run disk (map OpInsert ks) u)) = file_ptrs u
  /\ file (snd (run disk (map OpInsert ks) u)) = file u
  /\ elements (snd (run disk (map OpInsert ks) u)) = elements u
  /\ size (snd (run disk (map OpInsert ks) u)) = size u
  /\ tree (snd (run disk (map OpInsert ks) u))
     = fold_left (fun t k => tree_insert k t) ks (tree u).
Proof.
  revert u; induction ks as [|k ks IH]; intros u; simpl; [auto 6|].
  specialize (IH (set_tree u (tree_insert k (tree u)))).
  destruct (run disk (map OpInsert ks) (set_tree u (tree_insert k (tree u))))
    as [e2 u2]; simpl in *; exact IH.
Qed.

(** ** C4 *)

(** C4 (as amended).  After every sequence of insertions and flushes on a
    fresh instance the runs of the Run Directory do not overlap, and
    their offsets are strictly increasing when every recorded run is
    non-empty; when no operation of the sequence reported failure the
    sum of the [count] fields equals the [elements] counter; and a
    [flush] that reports failure leaves the Run Directory unmodified. *)
Theorem run_directory_invariant (disk : nat -> bool) (ops : list op)
  (sz mem : Z) :
  0 < sz ->
  let r := run disk ops (Unique_new sz mem) in
  non_overlapping sz (file_ptrs (snd r))
  /\ (Forall (fun p => 0 < count p) (file_ptrs (snd r)) ->
      offsets_increasing (file_ptrs (snd r)))
  /\ (fst r = false -> sum_counts (file_ptrs (snd r)) = elements (snd r))
  /\ (forall dyn_ok u u',
        flush disk dyn_ok u = (true, u') -> file_ptrs u' = file_ptrs u).
Proof.
  intros Hsz r.
  assert (Hd : directory_ok sz (snd r)).
  { apply directory_ok_run; [assumption|].
    repeat split; simpl; auto. }
  destruct Hd as (_ & Hn & _).
  split; [exact Hn|].
  split; [intros Hc; eapply non_overlapping_increasing; eauto|].
  split; [intros E; apply counter_ok_run; auto|].
  intros dyn_ok u u' E; apply flush_failed_inv in E; tauto.
Qed.

(** ** C3 *)

(** C3 (as amended).  When the flat region cannot be allocated, [get]
    takes the merge path: it flushes the tree as a run and merges the
    runs.  It then reports failure exactly when that flush, the
    allocation of the output cache or of the sort buffer, a merge step or
    the final output-stream I/O fails; otherwise it reports success and
    presents the merged stream (no flat region). *)
Theorem get_flat_alloc_failure (disk : nat -> bool) (e : get_env) (u : Unique) :
  flat_alloc_ok e = false ->
  let r := get disk e u in
  fst (fst r) =
    (fst (flush disk (insert_dynamic_ok e) u)
     || negb (outfile_ok e) || negb (sort_buffer_ok e)
     || negb (merge_many_buff_ok e) || negb (file_reinit_ok e)
     || negb (merge_buffers_ok e)
     || negb (outfile_flush_ok e) || negb (outfile_reinit_ok e))
  /\ record_pointers (snd r) = None
  /\ (fst (fst r) = false ->
      let u1 := snd (flush disk (insert_dynamic_ok e) u) in
      io_cache (snd r)
      = Some (merge_runs (size u1) (contents (file u1)) (file_ptrs u1))).
Proof.
  intros Ha r; subst r.
  rewrite get_slow_path by (rewrite Ha; apply andb_false_r).
  unfold get_merge_path.
  destruct (fst (flush disk (insert_dynamic_ok e) u)); simpl;
    [repeat split; discriminate|].
  destruct (outfile_ok e); simpl; [|repeat split; discriminate].
  destruct (sort_buffer_ok e); simpl; [|repeat split; discriminate].
  destruct (merge_many_buff_ok e), (file_reinit_ok e), (merge_buffers_ok e);
    simpl; repeat split; try discriminate; auto.
Qed.

(** ** Consequences of the comparator contract *)

Section ComparatorLaws.

(** The comparator is a total order up to equivalence: swapping the
    arguments swaps the sign, and "not greater" is transitive. *)
Hypothesis cmp_antisym : forall x y, cmp x y < 0 <-> 0 < cmp y x.
Hypothesis cmp_trans :
  forall x y z, cmp x y <= 0 -> cmp y z <= 0 -> cmp x z <= 0.

(** The comparator orders keys as the merge's own comparison does: the
    two always have the same sign. *)
Hypothesis ptr_compare_agrees :
  forall x y, Z.sgn (ptr_compare x y) = Z.sgn (cmp x y).

Lemma ptr_compare_leb (x y : K) : (ptr_compare x y <=? 0) = (cmp x y <=? 0).
Proof.
  pose proof (ptr_compare_agrees x y).
  destruct (ptr_compare x y <=? 0) eqn:E1; destruct (cmp x y <=? 0) eqn:E2;
    try reflexivity; lia.
Qed.

Lemma ptr_compare_eqb (x y : K) : (ptr_compare x y =? 0) = (cmp x y =? 0).
Proof.
  pose proof (ptr_compare_agrees x y).
  destruct (ptr_compare x y =? 0) eqn:E1; destruct (cmp x y =? 0) eqn:E2;
    try reflexivity; lia.
Qed.

Lemma cmp_refl (x : K) : cmp x x = 0.
Proof. pose proof (cmp_antisym x x); lia. Qed.

Lemma cmp_eq_sym (x y : K) : cmp x y = 0 -> cmp y x = 0.
Proof.
  pose proof (cmp_antisym x y); pose proof (cmp_antisym y x); lia.
Qed.

Lemma cmp_gt_le (x y : K) : 0 < cmp x y -> cmp y x <= 0.
Proof. pose proof (cmp_antisym y x); lia. Qed.

Lemma cmp_lt_le_trans (x y z : K) : cmp x y < 0 -> cmp y z <= 0 -> cmp x z < 0.
Proof.
  intros Hxy Hyz.
  destruct (Z_lt_le_dec (cmp x z) 0) as [|Hxz]; [assumption|exfalso].
  assert (Hzx : cmp z x <= 0).
  { pose proof (cmp_antisym x z); pose proof (cmp_antisym z x); lia. }
  pose proof (cmp_trans y z x Hyz Hzx).
  pose proof (cmp_antisym x y); lia.
Qed.

Lemma cmp_lt_trans (x y z : K) : cmp x y < 0 -> cmp y z < 0 -> cmp x z < 0.
Proof. intros; eapply cmp_lt_le_trans; eauto; lia. Qed.

Lemma cmp_eq_trans (x y z : K) : cmp x y = 0 -> cmp y z = 0 -> cmp x z = 0.
Proof.
  intros Hxy Hyz.
  pose proof (cmp_eq_sym _ _ Hxy); pose proof (cmp_eq_sym _ _ Hyz).
  assert (cmp x z <= 0) by (apply (cmp_trans x y z); lia).
  assert (cmp z x <= 0) by (apply (cmp_trans z y x); lia).
  pose proof (cmp_antisym x z); lia.
Qed.

Lemma ascending_weakly (l : list K) : ascending l -> weakly_ascending l.
Proof.
  induction 1 as [|x l Hs IH Hf]; constructor; auto.
  eapply Forall_impl; [|exact Hf]; simpl; intros; lia.
Qed.

(** *** The tree *)

Lemma tree_insert_In (k z : K) (t : TREE) :
  In z (tree_insert k t) -> z = k \/ In z t.
Proof.
  induction t as [|x t IH]; simpl.
  - intros [E|[]]; auto.
  - destruct (cmp k x <? 0); [simpl; intuition|].
    destruct (cmp k x =? 0); simpl; intuition.
Qed.

Lemma tree_insert_keeps (k z : K) (t : TREE) :
  In z t -> In z (tree_insert k t).
Proof.
  induction t as [|x t IH]; simpl; [tauto|].
  destruct (cmp k x <? 0); [simpl; intuition|].
  destruct (cmp k x =? 0); simpl; intuition.
Qed.

Lemma tree_insert_has (k : K) (t : TREE) :
  exists x, In x (tree_insert k t) /\ cmp x k = 0.
Proof.
  induction t as [|x t IH]; simpl.
  - exists k; split; [auto | apply cmp_refl].
  - destruct (cmp k x <? 0); [exists k; simpl; split; [auto | apply cmp_refl]|].
    destruct (cmp k x =? 0) eqn:E.
    + exists x; simpl; split; [auto | apply cmp_eq_sym; lia].
    + destruct IH as (y & Hy & Hc); exists y; simpl; auto.
Qed.

Lemma tree_insert_ascending (k : K) (t : TREE) :
  ascending t -> ascending (tree_insert k t).
Proof.
  induction 1 as [|x t Hs IH Hf]; simpl.
  - repeat constructor.
  - destruct (cmp k x <? 0) eqn:E1.
    + constructor; [constructor; assumption|].
      constructor; [lia|].
      eapply Forall_impl; [|exact Hf]; simpl; intros z Hz.
      eapply cmp_lt_trans; [|exact Hz]; lia.
    + destruct (cmp k x =? 0) eqn:E2; [constructor; assumption|].
      constructor; [assumption|].
      apply Forall_forall; intros z Hz.
      apply tree_insert_In in Hz as [->|Hz].
      * pose proof (cmp_antisym x k); lia.
      * rewrite Forall_forall in Hf; auto.
Qed.

(** *** Occurrences in an ascending sequence *)

Lemma occurrences_cons (k x : K) (l : list K) :
  occurrences k (x :: l)
  = ((if (cmp x k =? 0)%Z then 1 else 0) + occurrences k l)%nat.
Proof. unfold occurrences; simpl; destruct (cmp x k =? 0); reflexivity. Qed.

Lemma occurrences_none (k : K) (l : list K) :
  (forall z, In z l -> cmp z k <> 0) -> occurrences k l = 0%nat.
Proof.
  induction l as [|x l IH]; intros H; [reflexivity|].
  rewrite occurrences_cons, IH by (intros; apply H; simpl; auto).
  destruct (cmp x k =? 0) eqn:E; [|reflexivity].
  exfalso; apply (H x); simpl; auto; lia.
Qed.

Lemma ascending_occurs_once (k x : K) (l : list K) :
  ascending l -> In x l -> cmp x k = 0 -> occurrences k l = 1%nat.
Proof.
  induction 1 as [|y l Hs IH Hf]; intros Hin Hx; [destruct Hin|].
  rewrite occurrences_cons.
  destruct (cmp y k =? 0) eqn:E.
  - rewrite occurrences_none; [reflexivity|].
    intros z Hz Hzk.
    rewrite Forall_forall in Hf; specialize (Hf z Hz); simpl in Hf.
    assert (cmp y z = 0).
    { apply (cmp_eq_trans y k z); [lia | apply cmp_eq_sym; assumption]. }
    lia.
  - destruct Hin as [->|Hin]; [lia|].
    rewrite IH; auto.
Qed.

(** *** The merge *)

Lemma merge2_nil_r (a : list K) : merge2 a [] = a.
Proof. destruct a; reflexivity. Qed.

Lemma merge2_cons (x y : K) (a b : list K) :
  merge2 (x :: a) (y :: b) =
    if ptr_compare x y <=? 0 then x :: merge2 a (y :: b)
    else y :: merge2 (x :: a) b.
Proof. reflexivity. Qed.

Lemma merge2_In (z : K) (a b : list K) :
  In z (merge2 a b) <-> In z a \/ In z b.
Proof.
  revert b; induction a as [|x a IHa]; intros b.
  - simpl; tauto.
  - induction b as [|y b IHb].
    + rewrite merge2_nil_r; simpl; tauto.
    + rewrite merge2_cons.
      destruct (ptr_compare x y <=? 0); simpl.
      * rewrite IHa; simpl; tauto.
      * rewrite IHb; simpl; tauto.
Qed.

Lemma merge2_weakly_ascending (a b : list K) :
  weakly_ascending a -> weakly_ascending b -> weakly_ascending (merge2 a b).
Proof.
  intros Ha; revert b; induction Ha as [|x a Hsa IHa Hfa]; intros b Hb.
  - exact Hb.
  - induction Hb as [|y b Hsb IHb Hfb].
    + rewrite merge2_nil_r; constructor; assumption.
    + rewrite merge2_cons, ptr_compare_leb.
      rewrite Forall_forall in Hfa, Hfb.
      destruct (cmp x y <=? 0) eqn:E.
      * constructor; [apply IHa; constructor; auto; apply Forall_forall; auto|].
        apply Forall_forall; intros z Hz.
        apply merge2_In in Hz as [Hz|[<-|Hz]]; [auto | lia |].
        apply (cmp_trans x y z); [lia | auto].
      * constructor; [exact IHb|].
        assert (Hyx : cmp y x <= 0) by (apply cmp_gt_le; lia).
        apply Forall_forall; intros z Hz.
        apply merge2_In in Hz as [[<-|Hz]|Hz]; [assumption | | auto].
        apply (cmp_trans y x z); auto.
Qed.

Lemma merge_all_In (z : K) (rs : list (list K)) :
  In z (fold_right merge2 [] rs) <-> In z (concat rs).
Proof.
  induction rs as [|r rs IH]; simpl; [tauto|].
  rewrite merge2_In, in_app_iff, IH; tauto.
Qed.

Lemma merge_all_weakly_ascending (rs : list (list K)) :
  Forall ascending rs -> weakly_ascending (fold_right merge2 [] rs).
Proof.
  induction 1 as [|r rs Hr Hrs IH]; simpl; [constructor|].
  apply merge2_weakly_ascending; [apply ascending_weakly|]; assumption.
Qed.

Lemma skip_dups_spec (l : list K) :
  forall p,
    weakly_ascending l ->
    Forall (fun x => cmp p x <= 0) l ->
    ascending (skip_dups p l)
    /\ Forall (fun x => cmp p x < 0) (skip_dups p l)
    /\ (forall x, In x (skip_dups p l) -> In x l)
    /\ (forall z, In z l ->
          cmp p z = 0 \/ exists x, In x (skip_dups p l) /\ cmp x z = 0).
Proof.
  induction l as [|x l IH]; intros p Hs Hp; simpl.
  - split; [constructor|]; split; [constructor|]; split; intros ? [].
  - inversion Hs as [|? ? Hs' Hx]; subst.
    inversion Hp as [|? ? Hpx Hp']; subst.
    rewrite ptr_compare_eqb.
    destruct (cmp p x =? 0) eqn:E.
    + destruct (IH p Hs' Hp') as (A & B & C & D).
      repeat split; auto.
      intros z [<-|Hz]; [left; lia | auto].
    + destruct (IH x Hs' Hx) as (A & B & C & D).
      assert (Hlt : cmp p x < 0) by lia.
      repeat split.
      * constructor; assumption.
      * constructor; [assumption|].
        eapply Forall_impl; [|exact B]; simpl; intros z Hz.
        eapply cmp_lt_trans; eauto.
      * intros y [<-|Hy]; simpl; auto.
      * intros z [<-|Hz].
        -- right; exists x; simpl; split; [auto | apply cmp_refl].
        -- destruct (D z Hz) as [Hxz|(y & Hy & Hyz)].
           ++ right; exists x; simpl; auto.
           ++ right; exists y; simpl; auto.
Qed.

Lemma suppress_adjacent_spec (l : list K) :
  weakly_ascending l ->
  ascending (suppress_adjacent l)
  /\ (forall x, In x (suppress_adjacent l) -> In x l)
  /\ (forall z, In z l -> exists x, In x (suppress_adjacent l) /\ cmp x z = 0).
Proof.
  intros Hs; destruct l as [|x l]; simpl.
  - split; [constructor|]; split; intros ? [].
  - inversion Hs as [|? ? Hs' Hx]; subst.
    destruct (skip_dups_spec l x Hs' Hx) as (A & B & C & D).
    repeat split.
    + constructor; assumption.
    + intros y [<-|Hy]; auto.
    + intros z [<-|Hz].
      * exists x; split; [auto | apply cmp_refl].
      * destruct (D z Hz) as [Hxz|(y & Hy & Hyz)]; [exists x | exists y]; auto.
Qed.

(** *** Runs on the temp store *)

Lemma describe_snoc (sz : Z) (rs : list (list K)) (r : list K) :
  forall pos,
    describe sz pos (rs ++ [r])
    = describe sz pos rs
      ++ [mkBuffpek (pos + sz * Z.of_nat (length (concat rs)))
            (Z.of_nat (length r))].
Proof.
  induction rs as [|r0 rs IH]; intros pos; simpl.
  - f_equal; f_equal; lia.
  - rewrite IH, length_app, Nat2Z.inj_add.
    f_equal; f_equal; f_equal; f_equal; lia.
Qed.

Lemma read_runs_describe (sz : Z) (rs : list (list K)) :
  0 < sz ->
  forall pre,
    map (read_run sz (pre ++ concat rs))
      (describe sz (sz * Z.of_nat (length pre)) rs)
    = rs.
Proof.
  intros Hsz; induction rs as [|r rs IH]; intros pre; simpl; [reflexivity|].
  f_equal.
  - unfold read_run; simpl.
    rewrite Z.mul_comm, Z.div_mul, !Nat2Z.id by lia.
    rewrite skipn_app, skipn_all, Nat.sub_diag; simpl.
    rewrite firstn_app, firstn_all, Nat.sub_diag; simpl.
    apply app_nil_r.
  - specialize (IH (pre ++ r)).
    rewrite <- app_assoc, length_app, Nat2Z.inj_add, Z.mul_add_distr_l in IH.
    exact IH.
Qed.

Lemma runs_ok_step (disk : nat -> bool) (sz : Z) (ks : list K) (u u' : Unique)
  (o : op) :
  runs_ok sz ks u ->
  step disk u o = (false, u') ->
  runs_ok sz (ks ++ inserted [o]) u'.
Proof.
  intros (Hs & Ht & rs & Hc & Hp & Hr & Hin & Hall).
  destruct o as [k|dyn_ok]; simpl.
  - intros E; injection E as <-; simpl.
    split; [assumption|]; split; [apply tree_insert_ascending; assumption|].
    exists rs; repeat split; auto.
    + intros x [Hx|Hx]; apply in_app_iff.
      * apply tree_insert_In in Hx as [->|Hx]; simpl; auto.
      * auto.
    + intros k' Hk'; apply in_app_iff in Hk' as [Hk'|[<-|[]]].
      * destruct (Hall k' Hk') as (x & [Hx|Hx] & Hxk); exists x; split; auto.
        left; apply tree_insert_keeps; assumption.
      * destruct (tree_insert_has k (tree u)) as (x & Hx & Hxk); eauto.
  - intros E; apply flush_ok_inv in E as (E1 & _ & E3 & E4 & E5).
    rewrite app_nil_r.
    split; [congruence|]; split; [rewrite E3; constructor|].
    exists (rs ++ [tree u]).
    rewrite concat_app; simpl; rewrite app_nil_r.
    repeat split.
    + rewrite E5, Hc; reflexivity.
    + rewrite E4, Hp, describe_snoc; unfold my_b_tell, elements_in_tree.
      rewrite Hs, Hc; reflexivity.
    + apply Forall_app; split; [assumption | constructor; [assumption | constructor]].
    + rewrite E3; intros x [[]|Hx]; apply in_app_iff in Hx as [Hx|Hx]; auto.
    + intros k Hk; destruct (Hall k Hk) as (x & [Hx|Hx] & Hxk); exists x;
        split; auto; right; apply in_app_iff; auto.
Qed.

Lemma runs_ok_run (disk : nat -> bool) (sz : Z) (ops : list op) :
  forall ks u,
    runs_ok sz ks u ->
    fst (run disk ops u) = false ->
    runs_ok sz (ks ++ inserted ops) (snd (run disk ops u)).
Proof.
  induction ops as [|o ops IH]; intros ks u Hu; simpl.
  - rewrite app_nil_r; auto.
  - destruct (step disk u o) as [e1 u1] eqn:E1.
    specialize (IH (ks ++ inserted [o]) u1).
    destruct (run disk ops u1) as [e2 u2]; simpl in *.
    intros E; apply orb_false_iff in E as [-> ->].
    rewrite app_nil_r in IH; rewrite app_assoc.
    apply IH; auto.
    pose proof (runs_ok_step disk sz ks u u1 o Hu E1) as H.
    simpl in H; rewrite app_nil_r in H; exact H.
Qed.

Lemma runs_ok_new (sz mem : Z) : runs_ok sz [] (Unique_new sz mem).
Proof.
  split; [reflexivity|]; split; [constructor|].
  exists []; simpl; repeat split; auto.
  - intros x [[]|[]].
  - intros k [].
Qed.

(** What a successful [get] presents, for a state that satisfies the
    invariant. *)
Lemma get_result_ok (disk : nat -> bool) (e : get_env) (sz : Z) (ks : list K)
  (u u' : Unique) (t : FILESORT_INFO) :
  0 < sz ->
  runs_ok sz ks u ->
  get disk e u = (false, u', t) ->
  ascending (sort_result t)
  /\ (forall x, In x (sort_result t) -> In x ks)
  /\ (forall k, In k ks -> exists x, In x (sort_result t) /\ cmp x k = 0).
Proof.
  intros Hsz (Hs & Ht & rs & Hc & Hp & Hr & Hin & Hall).
  destruct ((my_b_tell u =? 0) && flat_alloc_ok e) eqn:Hfast.
  - apply andb_true_iff in Hfast as [Htell Ha].
    rewrite get_fast_path by (auto; apply Z.eqb_eq; assumption).
    intros E; injection E as _ <-; unfold sort_result; simpl.
    assert (Hnil : concat rs = []).
    { unfold my_b_tell in Htell; rewrite Hs, Hc in Htell.
      apply Z.eqb_eq in Htell.
      destruct (concat rs); [reflexivity|].
      simpl length in Htell; rewrite Nat2Z.inj_succ in Htell; nia. }
    rewrite Hnil in *.
    repeat split; auto.
    intros k Hk; destruct (Hall k Hk) as (x & [Hx|[]] & Hxk); eauto.
  - rewrite get_slow_path by assumption; unfold get_merge_path.
    destruct (flush disk (insert_dynamic_ok e) u) as [[|] u1] eqn:Ef; simpl;
      [discriminate|].
    destruct (outfile_ok e); simpl; [|discriminate].
    destruct (sort_buffer_ok e); simpl; [|discriminate].
    destruct (merge_many_buff_ok e && file_reinit_ok e && merge_buffers_ok e);
      simpl; [|discriminate].
    intros E; injection E as _ _ <-; unfold sort_result; simpl.
    apply flush_ok_inv in Ef as (E1 & _ & _ & E4 & E5).
    unfold merge_runs.
    assert (Hruns : map (read_run (size u1) (contents (file u1))) (file_ptrs u1)
                    = rs ++ [tree u]).
    { pose proof (read_runs_describe sz (rs ++ [tree u]) Hsz []) as H.
      simpl in H; rewrite Z.mul_0_r, describe_snoc in H.
      rewrite concat_app in H; simpl in H; rewrite app_nil_r in H.
      rewrite E1, Hs, E4, E5, Hp, Hc; unfold my_b_tell, elements_in_tree.
      rewrite Hs, Hc; exact H. }
    rewrite Hruns.
    assert (Hw : weakly_ascending (fold_right merge2 [] (rs ++ [tree u]))).
    { apply merge_all_weakly_ascending, Forall_app; split;
        [assumption | constructor; [assumption | constructor]]. }
    destruct (suppress_adjacent_spec _ Hw) as (A & B & C).
    assert (Hmem : forall z, In z (fold_right merge2 [] (rs ++ [tree u]))
                             <-> In z (tree u) \/ In z (concat rs)).
    { intros z; rewrite merge_all_In, concat_app, in_app_iff; simpl.
      rewrite app_nil_r; tauto. }
    repeat split; [exact A | |].
    + intros x Hx; apply Hin, Hmem, B, Hx.
    + intros k Hk; destruct (Hall k Hk) as (x & Hx & Hxk).
      apply Hmem in Hx; destruct (C x Hx) as (y & Hy & Hyx).
      exists y; split; [assumption | eapply cmp_eq_trans; eauto].
Qed.

(** ** C1 *)


(** ** C2 *)

Lemma fold_insert_ascending (ks : list K) (t : TREE) :
  ascending t -> ascending (fold_left (fun t k => tree_insert k t) ks t).
Proof.
  revert t; induction ks as [|k ks IH]; intros t Ht; simpl; auto.
  apply IH, tree_insert_ascending, Ht.
Qed.

(** C2 (as amended).  In every state reached by insertions only (no
    flush ever occurred, so the Run Directory is empty), if the
    allocation of the flat region succeeds then [get] succeeds and
    returns a region of [size * elements_in_tree] bytes holding the
    tree's keys in ascending order; the instance is unchanged and no
    write has been issued to the temp store. *)
Theorem get_in_memory (disk : nat -> bool) (e : get_env) (ks : list K)
  (sz mem : Z) :
  flat_alloc_ok e = true ->
  let u := snd (run disk (map OpInsert ks) (Unique_new sz mem)) in
  file_ptrs u = []
  /\ get disk e u =
       (false, u,
        mkSort (elements_in_tree (tree u))
          (Some (sz * elements_in_tree (tree u), tree u)) None)
  /\ ascending (tree u)
  /\ write_calls (file u) = 0%nat.
Proof.
  intros Ha u.
  destruct (run_inserts disk ks (Unique_new sz mem))
    as (_ & Hp & Hf & He & Hs & Ht).
  fold u in Hp, Hf, He, Hs, Ht; simpl in *.
  split; [assumption|].
  split.
  - rewrite get_fast_path; auto.
    + rewrite He, Hs; reflexivity.
    + unfold my_b_tell; rewrite Hf; simpl; lia.
  - split; [|rewrite Hf; reflexivity].
    rewrite Ht; apply fold_insert_ascending; constructor.
Qed.

End ComparatorLaws.

(** ** The cost estimator: integer part *)

Lemma uint_small (x : Z) : 0 <= x < 2 ^ 32 -> uint x = x.
Proof. intros H; unfold uint; apply Z.mod_small; assumption. Qed.

Lemma int_of_uint_small (x : Z) : 0 <= x < 2 ^ 31 -> int_of_uint x = x.
Proof.
  intros H; unfold int_of_uint; rewrite uint_small by lia.
  destruct (x <? 2 ^ 31) eqn:E; [reflexivity | lia].
Qed.

Lemma int_of_uint_cases (x : Z) :
  0 <= x < 2 ^ 32 ->
  (x < 2 ^ 31 /\ int_of_uint x = x)
  \/ (2 ^ 31 <= x /\ int_of_uint x = x - 2 ^ 32).
Proof.
  intros H; unfold int_of_uint; rewrite uint_small by assumption.
  destruct (x <? 2 ^ 31) eqn:E; [left | right]; split; lia.
Qed.

Lemma ALIGN_SIZE_eq (a : Z) : ALIGN_SIZE a = 8 * ((a + 7) / 8).
Proof.
  unfold ALIGN_SIZE.
  change 7 with (Z.ones 3) at 2.
  rewrite <- Z.ldiff_land, Z.ldiff_ones_r by lia.
  rewrite Z.shiftl_mul_pow2, Z.shiftr_div_pow2 by lia.
  change (2 ^ 3) with 8; lia.
Qed.

Lemma ALIGN_SIZE_pos (a : Z) : 0 < a -> a <= ALIGN_SIZE a.
Proof.
  intros H; rewrite ALIGN_SIZE_eq.
  pose proof (Z.div_mod (a + 7) 8); pose proof (Z.mod_pos_bound (a + 7) 8); lia.
Qed.

(** ** C9 *)

(** C9 (as amended).  When the memory budget holds at least one element,
    that is [ALIGN_SIZE(sizeof(TREE_ELEMENT)+key_size) <=
    max_in_memory_size], the divisor [max_elements_in_tree] of
    [get_use_cost] is positive, so the quotient and the remainder are
    defined. *)
Theorem max_elements_in_tree_positive (key_size max_in_memory_size : Z) :
  0 <= sizeof_TREE_ELEMENT ->
  0 < key_size ->
  ALIGN_SIZE (sizeof_TREE_ELEMENT + key_size) <= max_in_memory_size ->
  0 < max_elements_in_tree key_size max_in_memory_size.
Proof.
  intros Hs Hk Hm; unfold max_elements_in_tree.
  pose proof (ALIGN_SIZE_pos (sizeof_TREE_ELEMENT + key_size)) as Ha.
  apply Z.div_str_pos; lia.
Qed.

(** ** The merge simulation *)

Lemma iterations_step (i x : Z) :
  0 < MERGEBUFF -> i <= x ->
  iterations i x = 1 + iterations (i + MERGEBUFF) x.
Proof.
  intros HB Hi; unfold iterations.
  destruct (i <=? x) eqn:E1; [|lia].
  destruct (i + MERGEBUFF <=? x) eqn:E2.
  - replace (x - i) with (x - (i + MERGEBUFF) + 1 * MERGEBUFF) by lia.
    rewrite Z.div_add by lia; lia.
  - rewrite Z.div_small by lia; lia.
Qed.

Lemma iterations_nonneg (i x : Z) : 0 < MERGEBUFF -> 0 <= iterations i x.
Proof.
  intros HB; unfold iterations.
  destruct (i <=? x) eqn:E; [|lia].
  pose proof (Z.div_pos (x - i) MERGEBUFF); lia.
Qed.

Lemma collapse_fields (elem_size : Z) (st : sim) (first last : Z) :
  maxbuffer (collapse elem_size st first last) = maxbuffer st
  /\ lastbuff (collapse elem_size st first last) = lastbuff st + sizeof_uint.
Proof. split; reflexivity. Qed.

Lemma loop_bound_eq (m x : Z) :
  loop_bound m = Some x -> x = int_of_uint m - MERGEBUFF * 3 / 2.
Proof.
  unfold loop_bound.
  destruct ((int_of_uint m <? 0)
            && (int_of_uint m - MERGEBUFF * 3 / 2 <? - 2 ^ 31));
    [discriminate|].
  intros H; injection H as <-; reflexivity.
Qed.

(** A run count in the range of [int] always has a loop bound. *)
Lemma loop_bound_int (m : Z) :
  0 <= m < 2 ^ 31 -> loop_bound m = Some (m - MERGEBUFF * 3 / 2).
Proof.
  intros H; unfold loop_bound; rewrite int_of_uint_small by assumption.
  destruct (m <? 0) eqn:E; [lia | reflexivity].
Qed.

Lemma merge_groups_runs (elem_size : Z) :
  0 < MERGEBUFF ->
  forall fuel i st x,
    loop_bound (maxbuffer st) = Some x ->
    iterations i x < Z.of_nat fuel ->
    exists i' st',
      merge_groups fuel elem_size i st = Some (i', st')
      /\ maxbuffer st' = maxbuffer st
      /\ lastbuff st' = lastbuff st + sizeof_uint * iterations i x.
Proof.
  intros HB; induction fuel as [|fuel IH]; intros i st x Hx Hf.
  - pose proof (iterations_nonneg i x HB); lia.
  - cbn [merge_groups]; rewrite Hx.
    destruct (i <=? x) eqn:E.
    + rewrite (iterations_step i _ HB) in * by lia.
      destruct (IH (i + MERGEBUFF)
                  (collapse elem_size st i (i + MERGEBUFF - 1)) x)
        as (i' & st' & H1 & H2 & H3).
      { rewrite (proj1 (collapse_fields _ _ _ _)); exact Hx. }
      { lia. }
      exists i', st'; split; [exact H1|].
      rewrite H2, H3, (proj1 (collapse_fields _ _ _ _)),
        (proj2 (collapse_fields _ _ _ _)).
      split; [reflexivity | lia].
    + exists i, st; split; [reflexivity|]; split; [reflexivity|].
      unfold iterations; rewrite E; lia.
Qed.

(** One pass leaves [next_maxbuffer] runs. *)
Lemma merge_pass_runs (elem_size : Z) (fuel : nat) (st : sim) (x : Z) :
  0 < MERGEBUFF ->
  loop_bound (maxbuffer st) = Some x ->
  iterations 0 x < Z.of_nat fuel ->
  exists st',
    merge_pass fuel elem_size st = Some st'
    /\ next_maxbuffer (maxbuffer st) = Some (maxbuffer st').
Proof.
  intros HB Hx Hf; unfold merge_pass.
  destruct (merge_groups_runs elem_size HB fuel 0
              (mkSim (total_cost st) (buff_elems st) 0 (maxbuffer st)) x
              Hx Hf)
    as (i' & st1 & H1 & H2 & H3).
  rewrite H1; eexists; split; [reflexivity|].
  cbn [maxbuffer]; rewrite (proj2 (collapse_fields _ _ _ _)), H3.
  cbn [maxbuffer lastbuff]; unfold next_maxbuffer, iterations; rewrite Hx.
  rewrite Z.sub_0_r.
  destruct (0 <=? x); do 2 f_equal; unfold sizeof_uint; lia.
Qed.

(** With a fan-in above the pointer stride, a pass strictly decreases
    the run count, and what it leaves is in the range of [int].  A run
    count of [2^31] or more is negative as an [int]: where the loop
    bound has a value the [for] loop is skipped and one collapse leaves
    3. *)
Lemma next_maxbuffer_decreases (m nm : Z) :
  4 < MERGEBUFF -> 7 < MERGEBUFF2 ->
  0 <= m < 2 ^ 32 -> MERGEBUFF2 <= m ->
  next_maxbuffer m = Some nm ->
  0 <= nm < m /\ nm < 2 ^ 31.
Proof.
  intros HB HT Hm Hge; unfold next_maxbuffer.
  destruct (loop_bound m) as [x|] eqn:Ex; [|discriminate].
  apply loop_bound_eq in Ex; subst x.
  intros H.
  apply (f_equal (fun o => match o with Some v => v | None => 0 end)) in H.
  cbn beta iota in H; subst nm; unfold sizeof_uint.
  assert (Hh : 7 <= MERGEBUFF * 3 / 2).
  { apply Z.div_le_lower_bound; lia. }
  change (2 ^ 32) with 4294967296 in Hm.
  change (2 ^ 31) with 2147483648.
  destruct (int_of_uint_cases m) as [[Hlt ->]|[Hlt ->]];
    [change (2 ^ 32) with 4294967296; lia | | ];
    change (2 ^ 31) with 2147483648 in Hlt;
    change (2 ^ 32) with 4294967296.
  - destruct (0 <=? m - MERGEBUFF * 3 / 2) eqn:E.
    + set (x := m - MERGEBUFF * 3 / 2) in *.
      assert (Hx : 0 <= x) by lia.
      pose proof (Z.mul_div_le x MERGEBUFF ltac:(lia)) as Hq.
      pose proof (Z.div_pos x MERGEBUFF Hx ltac:(lia)) as Hq0.
      assert (H5 : 5 * (x / MERGEBUFF) <= x) by nia.
      rewrite uint_small; [lia | change (2 ^ 32) with 4294967296; lia].
    + rewrite uint_small; [lia | change (2 ^ 32) with 4294967296; lia].
  - destruct (0 <=? m - 4294967296 - MERGEBUFF * 3 / 2) eqn:E; [lia|].
    rewrite uint_small; [lia | change (2 ^ 32) with 4294967296; lia].
Qed.

Lemma iterations_bound (m x : Z) :
  0 < MERGEBUFF -> 0 <= m < 2 ^ 32 ->
  loop_bound m = Some x ->
  iterations 0 x <= m + 1.
Proof.
  intros HB Hm Hx; apply loop_bound_eq in Hx; subst x; unfold iterations.
  assert (0 <= MERGEBUFF * 3 / 2) by (apply Z.div_pos; lia).
  destruct (int_of_uint_cases m Hm) as [[Hlt ->]|[Hlt ->]].
  - destruct (0 <=? m - MERGEBUFF * 3 / 2) eqn:E; [|lia].
    rewrite Z.sub_0_r.
    assert ((m - MERGEBUFF * 3 / 2) / MERGEBUFF <= m - MERGEBUFF * 3 / 2).
    { apply Z.div_le_upper_bound; nia. }
    lia.
  - destruct (0 <=? m - 2 ^ 32 - MERGEBUFF * 3 / 2) eqn:E; lia.
Qed.

Lemma merge_passes_total (elem_size : Z) :
  4 < MERGEBUFF -> 7 < MERGEBUFF2 ->
  forall fuel st,
    0 <= maxbuffer st < 2 ^ 32 ->
    loop_bound (maxbuffer st) <> None ->
    maxbuffer st + 2 <= Z.of_nat fuel ->
    exists st', merge_passes fuel elem_size st = Some st'.
Proof.
  intros HB HT; induction fuel as [|fuel IH]; intros st Hm Hd Hf; [lia|].
  cbn [merge_passes].
  destruct (MERGEBUFF2 <=? maxbuffer st) eqn:E; [|eauto].
  destruct (loop_bound (maxbuffer st)) as [x|] eqn:Ex;
    [|exfalso; apply Hd; reflexivity].
  destruct (merge_pass_runs elem_size (S fuel) st x) as (st1 & H1 & H2);
    [lia | exact Ex | |].
  { pose proof (iterations_bound (maxbuffer st) x ltac:(lia) Hm Ex); lia. }
  rewrite H1.
  destruct (next_maxbuffer_decreases (maxbuffer st) (maxbuffer st1) HB HT Hm
              ltac:(lia) H2) as [Hd1 Hd2].
  apply IH; [lia | rewrite loop_bound_int by lia; discriminate | lia].
Qed.

(** Where the loop bound has no value, neither has the simulation,
    whatever the number of iterations allowed. *)
Lemma merge_passes_undefined (elem_size : Z) (fuel : nat) (st : sim) :
  loop_bound (maxbuffer st) = None ->
  MERGEBUFF2 <= maxbuffer st ->
  merge_passes fuel elem_size st = None.
Proof.
  intros Hx Hge; destruct fuel as [|fuel]; [reflexivity|].
  cbn [merge_passes].
  destruct (MERGEBUFF2 <=? maxbuffer st) eqn:E; [|lia].
  unfold merge_pass; cbn [merge_groups maxbuffer]; rewrite Hx; reflexivity.
Qed.

(** ** C10 *)

(** C10 (as amended).  For every run count for which the bound of the
    [for] loop, [(int) maxbuffer - MERGEBUFF*3/2], has a value (every
    run count up to [INT_MAX], and those above it for which the
    subtraction stays in the range of [int]) and every element count,
    with the fan-in above the stride of the [lastbuff] pointer (as it
    is for the header's values): every pass of the [while] loop that is
    entered ends and leaves a strictly smaller run count, as the code
    updates it ([maxbuffer= (uint)lastbuff-1], the value
    [next_maxbuffer]); hence the loop ends and the whole simulation
    returns a cost. *)
Theorem merge_simulation_terminates (buffer : Z -> Z)
  (m max_n_elems last_n_elems elem_size : Z) :
  4 < MERGEBUFF -> 7 < MERGEBUFF2 ->
  0 <= m < 2 ^ 32 ->
  loop_bound m <> None ->
  (forall st,
      maxbuffer st = m -> MERGEBUFF2 <= m ->
      exists st',
        merge_pass (S (S (Z.to_nat m))) elem_size st = Some st'
        /\ next_maxbuffer m = Some (maxbuffer st')
        /\ 0 <= maxbuffer st' < m)
  /\ exists cost,
       get_merge_many_buffs_cost (S (S (Z.to_nat m))) buffer
         m max_n_elems last_n_elems elem_size = Some cost.
Proof.
  intros HB HT Hm Hd; split.
  - intros st Hst Hge.
    destruct (loop_bound m) as [x|] eqn:Ex; [|exfalso; apply Hd; reflexivity].
    destruct (merge_pass_runs elem_size (S (S (Z.to_nat m))) st x)
      as (st' & H1 & H2); [lia | rewrite Hst; exact Ex | |].
    { pose proof (iterations_bound m x ltac:(lia) Hm Ex); lia. }
    rewrite Hst in H2.
    exists st'; split; [exact H1|]; split; [exact H2|].
    apply (next_maxbuffer_decreases m (maxbuffer st') HB HT Hm Hge H2).
  - unfold get_merge_many_buffs_cost.
    destruct (merge_passes_total elem_size HB HT (S (S (Z.to_nat m)))
                (sim_init buffer m max_n_elems last_n_elems))
      as (st' & H); [exact Hm | exact Hd | simpl; lia |].
    rewrite H; eauto.
Qed.

(** ** The cost estimator: real part *)

Lemma ln2_pos : (0 < ln 2)%R.
Proof. pose proof ln_lt_2; lra. Qed.

Lemma ln_mono (x y : R) : (0 < x -> x <= y -> ln x <= ln y)%R.
Proof.
  intros Hx [Hlt | ->]; [|lra].
  left; apply ln_increasing; assumption.
Qed.

Lemma PI_gt_3 : (3 < PI)%R.
Proof. pose proof PI2_3_2; lra. Qed.

Lemma ln_pow2 (n : nat) : ln (2 ^ n) = (INR n * ln 2)%R.
Proof. apply ln_pow; lra. Qed.

Lemma ln_over_e (x : R) : (0 < x -> ln (x / exp 1) = ln x - 1)%R.
Proof.
  intros Hx; unfold Rdiv.
  rewrite ln_mult, ln_Rinv, ln_exp by
    (try apply Rinv_0_lt_compat; try apply exp_pos; assumption).
  lra.
Qed.

(** [log2_n_fact] in terms of [ln x]. *)
Lemma log2_n_fact_eq (x : R) :
  (0 < x ->
   log2_n_fact x = (ln (2 * PI * x) / 2 + x * (ln x - 1)) / ln 2)%R.
Proof. intros Hx; unfold log2_n_fact; rewrite ln_over_e by assumption; reflexivity. Qed.

Lemma log2_n_fact_pos (x : R) : (3 <= x -> 0 < log2_n_fact x)%R.
Proof.
  intros Hx; rewrite log2_n_fact_eq by lra.
  pose proof ln2_pos; pose proof PI_gt_3.
  assert (0 < ln (2 * PI * x))%R.
  { rewrite <- ln_1; apply ln_increasing; nra. }
  assert (1 <= ln x)%R.
  { rewrite <- (ln_exp 1); apply ln_mono; [apply exp_pos|].
    pose proof exp_le_3; lra. }
  apply Rdiv_lt_0_compat; [nra | assumption].
Qed.

(** [y * (ln y - ln x) >= y - x]. *)
Lemma ln_slope (x y : R) : (0 < x -> 0 < y -> y - x <= y * (ln y - ln x))%R.
Proof.
  intros Hx Hy.
  pose proof (exp_ineq1_le (ln x - ln y)) as H.
  replace (exp (ln x - ln y)) with (x * / y)%R in H.
  - assert (x * / y * y = x)%R by (field; lra).
    nra.
  - unfold Rminus; rewrite exp_plus, exp_Ropp, !exp_ln by assumption.
    reflexivity.
Qed.

Lemma log2_n_fact_mono (x y : R) :
  (1 <= x -> x <= y -> log2_n_fact x <= log2_n_fact y)%R.
Proof.
  intros Hx Hxy; rewrite !log2_n_fact_eq by lra.
  pose proof ln2_pos; pose proof PI_gt_3.
  assert (ln (2 * PI * x) <= ln (2 * PI * y))%R by (apply ln_mono; nra).
  assert (0 <= ln x)%R by (rewrite <- ln_1; apply ln_mono; lra).
  assert (ln x <= ln y)%R by (apply ln_mono; lra).
  pose proof (ln_slope x y ltac:(lra) ltac:(lra)).
  apply Rmult_le_compat_r; [left; apply Rinv_0_lt_compat; assumption|].
  nra.
Qed.

Lemma ceil_IZR (z : Z) : ceil (IZR z) = IZR z.
Proof.
  unfold ceil, Zceil; rewrite ZfloorNZ; f_equal; lia.
Qed.

(** ** C5 and C6: what the code computes *)

(** The tree-creation term of the code against the specification's
    formula: the code charges [log2_n_fact] once, not twice, for every
    full tree. *)
Lemma create_trees_cost_gap (n_full_trees max_elems last_tree_elems : Z) :
  n_full_trees <> 0 ->
  (create_trees_cost_spec n_full_trees max_elems last_tree_elems
   - create_trees_cost n_full_trees max_elems last_tree_elems
   = IZR n_full_trees * log2_n_fact (IZR max_elems + 1)
     / TIME_FOR_COMPARE_ROWID)%R.
Proof.
  intros Hn; unfold create_trees_cost_spec, create_trees_cost.
  destruct (n_full_trees =? 0) eqn:E; [lia|].
  unfold Rdiv; ring.
Qed.

(** [ceil] is applied to an integer quotient, so it changes nothing. *)
Lemma write_trees_cost_floor (n_full_trees max_elems last_tree_elems
  key_size : Z) :
  write_trees_cost n_full_trees max_elems last_tree_elems key_size
  = (DISK_SEEK_BASE_COST * IZR n_full_trees
       * IZR (ulong (key_size * max_elems) / IO_SIZE)
     + DISK_SEEK_BASE_COST
       * IZR (ulong (key_size * last_tree_elems) / IO_SIZE))%R.
Proof. unfold write_trees_cost; rewrite !ceil_IZR; reflexivity. Qed.

(** *** The estimate for one tree *)

Lemma get_use_cost_single_run (buffer : Z -> Z) (nkeys key_size mem : Z) :
  0 <= nkeys < max_elements_in_tree key_size mem ->
  get_use_cost buffer nkeys key_size mem
  = Some (2 * log2_n_fact (IZR nkeys + 1) / TIME_FOR_COMPARE_ROWID)%R.
Proof.
  intros H; unfold get_use_cost.
  destruct (max_elements_in_tree key_size mem =? 0) eqn:E; [lia|].
  rewrite Z.div_small, Z.mod_small by assumption.
  reflexivity.
Qed.

(** *** Bounds on [log2_n_fact] by powers of two *)

Lemma Rdiv_le_bound (n d b : R) : (0 < d -> n <= b * d -> n / d <= b)%R.
Proof.
  intros Hd H; apply (Rmult_le_reg_r d); [assumption|].
  replace (n / d * d)%R with n by (field; lra); assumption.
Qed.

Lemma Rdiv_ge_bound (n d b : R) : (0 < d -> b * d <= n -> b <= n / d)%R.
Proof.
  intros Hd H; apply (Rmult_le_reg_r d); [assumption|].
  replace (n / d * d)%R with n by (field; lra); assumption.
Qed.

Lemma log2_n_fact_upper (x : R) (p q : nat) :
  (1 <= x -> 2 * PI * x <= 2 ^ p -> x <= 2 ^ q ->
   log2_n_fact x <= INR p / 2 + x * INR q)%R.
Proof.
  intros Hx Hp Hq; rewrite log2_n_fact_eq by lra.
  pose proof ln2_pos as H2; pose proof PI_gt_3.
  assert (ln (2 * PI * x) <= INR p * ln 2)%R.
  { rewrite <- ln_pow2; apply ln_mono; [nra | assumption]. }
  assert (ln x <= INR q * ln 2)%R.
  { rewrite <- ln_pow2; apply ln_mono; [lra | assumption]. }
  apply Rdiv_le_bound; [assumption|].
  assert (0 <= INR q)%R by apply pos_INR.
  nra.
Qed.

Lemma log2_n_fact_lower (x : R) (q : nat) :
  (1 <= x -> 2 ^ q <= x -> (INR q - 2) * x <= log2_n_fact x)%R.
Proof.
  intros Hx Hq; rewrite log2_n_fact_eq by lra.
  pose proof ln2_pos as H2; pose proof ln_lt_2; pose proof PI_gt_3.
  assert (0 <= ln (2 * PI * x))%R.
  { rewrite <- ln_1; apply ln_mono; nra. }
  assert (INR q * ln 2 <= ln x)%R.
  { rewrite <- ln_pow2; apply ln_mono; [apply pow_lt; lra | assumption]. }
  apply Rdiv_ge_bound; [assumption|].
  nra.
Qed.

(** *** The estimate for a few runs (no pass of the [while] loop) *)

Lemma get_merge_many_buffs_cost_no_pass (fuel : nat) (buffer : Z -> Z)
  (m max_n_elems last_n_elems elem_size : Z) :
  m < MERGEBUFF2 ->
  get_merge_many_buffs_cost (S fuel) buffer m max_n_elems last_n_elems
    elem_size
  = Some (0 + fst (get_merge_buffers_cost
                     (buff_elems (sim_init buffer m max_n_elems last_n_elems))
                     (uint elem_size) 0 m))%R.
Proof.
  intros Hm; unfold get_merge_many_buffs_cost; cbn [merge_passes].
  change (maxbuffer (sim_init buffer m max_n_elems last_n_elems)) with m.
  destruct (MERGEBUFF2 <=? m) eqn:E; [lia|].
  reflexivity.
Qed.

Lemma get_use_cost_few_runs (buffer : Z -> Z) (nkeys key_size mem : Z)
  (max_elems n last : Z) (merge_cost : R) :
  max_elements_in_tree key_size mem = max_elems ->
  max_elems <> 0 ->
  int_of_uint (nkeys / max_elems) = n ->
  n <> 0 ->
  uint n < MERGEBUFF2 ->
  nkeys mod max_elems = last ->
  fst (get_merge_buffers_cost
         (buff_elems (sim_init buffer (uint n) (uint max_elems) (uint last)))
         (uint (int_of_uint key_size)) 0 (uint n)) = merge_cost ->
  (0 <= merge_cost)%R ->
  get_use_cost buffer nkeys key_size mem
  = Some (create_trees_cost n max_elems last
          + write_trees_cost n max_elems last key_size
          + (0 + merge_cost)
          + ceil (IZR key_size * IZR nkeys / IZR IO_SIZE))%R.
Proof.
  intros Hmax Hnz Hn Hn0 Hlt Hlast HM Hpos; unfold get_use_cost.
  rewrite Hmax, Hn, Hlast.
  destruct (max_elems =? 0) eqn:E1; [lia|].
  destruct (n =? 0) eqn:E2; [lia|].
  rewrite get_merge_many_buffs_cost_no_pass, HM by assumption.
  destruct (Rlt_dec (0 + merge_cost) 0) as [Hneg|_]; [lra | reflexivity].
Qed.

(** *** The initial buffer and its sum *)

Lemma fill_inside (b : Z -> Z) (v : Z) (n : nat) (i : Z) :
  0 <= i < Z.of_nat n -> fill b v n i = v.
Proof.
  induction n as [|n IH]; intros Hi; [lia|].
  cbn [fill]; unfold store.
  destruct (i =? Z.of_nat n) eqn:E; [reflexivity | apply IH; lia].
Qed.

Lemma sum_elems_snoc (b : Z -> Z) (k : nat) :
  forall first acc,
    sum_elems b first (S k) acc
    = uint (sum_elems b first k acc + b (first + Z.of_nat k)).
Proof.
  induction k as [|k IH]; intros first acc.
  - cbn [sum_elems]; rewrite Z.add_0_r; reflexivity.
  - change (sum_elems b first (S (S k)) acc)
      with (sum_elems b (first + 1) (S k) (uint (acc + b first))).
    rewrite IH; cbn [sum_elems].
    rewrite Nat2Z.inj_succ; do 3 f_equal; lia.
Qed.

Lemma sum_elems_const (b : Z -> Z) (v : Z) (k : nat) :
  forall first acc,
    (forall i, first <= i < first + Z.of_nat k -> b i = v) ->
    0 <= acc -> 0 <= v -> acc + Z.of_nat k * v < 2 ^ 32 ->
    sum_elems b first k acc = acc + Z.of_nat k * v.
Proof.
  induction k as [|k IH]; intros first acc Hb Ha Hv Hlt; cbn [sum_elems].
  - simpl; lia.
  - rewrite (Hb first) by lia.
    rewrite uint_small by nia.
    rewrite IH; [lia | intros; apply Hb; lia | lia | lia | nia].
Qed.

(** The sequences of the initial state hold [n*max_n_elems +
    last_n_elems] elements together. *)
Lemma sum_elems_init (buffer : Z -> Z) (n max_n_elems last_n_elems : Z) :
  0 <= n < 2 ^ 31 -> 0 <= max_n_elems -> 0 <= last_n_elems ->
  n * max_n_elems + last_n_elems < 2 ^ 32 ->
  sum_elems (buff_elems (sim_init buffer n max_n_elems last_n_elems))
    0 (Z.to_nat (n - 0 + 1)) 0
  = n * max_n_elems + last_n_elems.
Proof.
  intros Hn Hv Hl Hlt.
  replace (Z.to_nat (n - 0 + 1)) with (S (Z.to_nat n)) by lia.
  rewrite sum_elems_snoc.
  cbn [buff_elems sim_init]; rewrite int_of_uint_small by assumption.
  rewrite (sum_elems_const _ max_n_elems).
  - unfold store at 1.
    rewrite Z2Nat.id, Z.add_0_l, Z.eqb_refl by lia.
    apply uint_small; lia.
  - intros i Hi; unfold store.
    destruct (i =? n) eqn:E; [lia|].
    apply fill_inside; lia.
  - lia.
  - assumption.
  - nia.
Qed.

(** *** The estimate while no pass of the [while] loop is needed *)

Lemma final_merge_cost_mono (nkeys nkeys' n key_size : Z) :
  (0 < TIME_FOR_COMPARE_ROWID)%R -> 0 < IO_SIZE ->
  0 <= key_size -> 0 <= n -> 0 <= nkeys <= nkeys' ->
  (0 <= final_merge_cost nkeys n key_size
        <= final_merge_cost nkeys' n key_size)%R.
Proof.
  intros HT HIO Hk Hn Hle; unfold final_merge_cost.
  pose proof ln2_pos as H2.
  assert (0 <= IZR nkeys /\ IZR nkeys <= IZR nkeys')%R as [H0 H1]
    by (split; apply IZR_le; lia).
  assert (0 <= IZR key_size)%R by (apply IZR_le; lia).
  assert (0 < IZR IO_SIZE)%R by (apply IZR_lt; lia).
  assert (0 <= ln (IZR (n - 0 + 1)))%R.
  { rewrite <- ln_1; apply ln_mono; [lra | apply IZR_le; lia]. }
  assert (0 < / IZR IO_SIZE)%R by (apply Rinv_0_lt_compat; assumption).
  assert (0 < / (TIME_FOR_COMPARE_ROWID * ln 2))%R
    by (apply Rinv_0_lt_compat; nra).
  unfold Rdiv.
  set (a := (/ IZR IO_SIZE)%R) in *.
  set (c := (/ (TIME_FOR_COMPARE_ROWID * ln 2))%R) in *.
  set (l := ln (IZR (n - 0 + 1))) in *.
  assert (0 <= IZR key_size * a)%R by nra.
  assert (0 <= l * c)%R by nra.
  split; nra.
Qed.

Lemma get_use_cost_no_pass (buffer : Z -> Z) (nkeys key_size mem : Z) :
  (0 < TIME_FOR_COMPARE_ROWID)%R -> 0 < IO_SIZE ->
  MERGEBUFF2 <= 2 ^ 31 ->
  0 <= key_size < 2 ^ 31 ->
  0 <= nkeys < 2 ^ 32 ->
  0 < max_elements_in_tree key_size mem ->
  0 < nkeys / max_elements_in_tree key_size mem < MERGEBUFF2 ->
  get_use_cost buffer nkeys key_size mem
  = Some (create_trees_cost (nkeys / max_elements_in_tree key_size mem)
            (max_elements_in_tree key_size mem)
            (nkeys mod max_elements_in_tree key_size mem)
          + write_trees_cost (nkeys / max_elements_in_tree key_size mem)
              (max_elements_in_tree key_size mem)
              (nkeys mod max_elements_in_tree key_size mem) key_size
          + (0 + final_merge_cost nkeys
                   (nkeys / max_elements_in_tree key_size mem) key_size)
          + ceil (IZR key_size * IZR nkeys / IZR IO_SIZE))%R.
Proof.
  intros HT HIO HM2 Hk Hkeys Hmax Hn.
  set (mx := max_elements_in_tree key_size mem) in *.
  set (n := nkeys / mx) in *.
  pose proof (Z.div_mod nkeys mx ltac:(lia)) as Hdm; fold n in Hdm.
  pose proof (Z.mod_pos_bound nkeys mx Hmax) as Hmod.
  assert (Hmx : mx <= nkeys) by nia.
  change (2 ^ 31) with 2147483648 in *; change (2 ^ 32) with 4294967296 in *.
  assert (Hun : uint n = n)
    by (apply uint_small; change (2 ^ 32) with 4294967296; lia).
  assert (Hin : int_of_uint n = n)
    by (apply int_of_uint_small; change (2 ^ 31) with 2147483648; lia).
  apply get_use_cost_few_runs; try reflexivity; try lia.
  - exact Hin.
  - assert (Hmx' : uint mx = mx)
      by (apply uint_small; change (2 ^ 32) with 4294967296; lia).
    assert (Hlast : uint (nkeys mod mx) = nkeys mod mx)
      by (apply uint_small; change (2 ^ 32) with 4294967296; lia).
    assert (Hks : uint (int_of_uint key_size) = key_size).
    { rewrite int_of_uint_small by (change (2 ^ 31) with 2147483648; lia).
      apply uint_small; change (2 ^ 32) with 4294967296; lia. }
    unfold get_merge_buffers_cost, final_merge_cost; cbn [fst].
    rewrite Hun, Hmx', Hlast, Hks.
    rewrite sum_elems_init;
      change (2 ^ 31) with 2147483648; change (2 ^ 32) with 4294967296;
      try lia.
    replace (n * mx + nkeys mod mx) with nkeys by lia.
    reflexivity.
  - exact (proj1 (final_merge_cost_mono nkeys nkeys n key_size HT HIO
                    ltac:(lia) ltac:(lia) ltac:(lia))).
Qed.

(** ** C8 *)


(** * Further properties of the code *)

(** ** [unique_write_to_file] under [tree_walk] *)

(** The walk writes a prefix of the tree: all of it when no write
    fails, and otherwise the keys before the first failing write, after
    which no further write is issued. *)
Lemma walk_to_file_trace (disk : nat -> bool) (t : TREE) (f : IO_CACHE) :
  exists written rest,
    t = written ++ rest
    /\ contents (snd (tree_walk (unique_write_to_file disk) t f))
       = contents f ++ written
    /\ write_calls (snd (tree_walk (unique_write_to_file disk) t f))
       = (write_calls f + length written
          + if fst (tree_walk (unique_write_to_file disk) t f) then 1 else 0)%nat
    /\ (fst (tree_walk (unique_write_to_file disk) t f) = false -> rest = [])
    /\ (fst (tree_walk (unique_write_to_file disk) t f) = true -> rest <> []).
Proof.
  revert f; induction t as [|k t IH]; intros f.
  - exists [], []; simpl; rewrite app_nil_r.
    repeat split; [lia | discriminate].
  - rewrite tree_walk_cons, (write_to_file_eq disk k f).
    destruct (disk (write_calls f)); cbn [fst snd].
    + destruct (IH (mkCache (contents f ++ [k]) (S (write_calls f))))
        as (w & r & Ht & Hc & Hn & Hok & Hko); cbn [contents write_calls] in *.
      exists (k :: w), r; repeat split; auto.
      * rewrite Ht; reflexivity.
      * rewrite Hc, <- app_assoc; reflexivity.
      * rewrite Hn; simpl; lia.
    + exists [], (k :: t); cbn [contents write_calls]; rewrite app_nil_r.
      repeat split; [simpl; lia | discriminate | discriminate].
Qed.

(** ** [Unique::flush] *)

Lemma flush_ok_writes (disk : nat -> bool) (dyn_ok : bool) (u u' : Unique) :
  flush disk dyn_ok u = (false, u') ->
  write_calls (file u') = (write_calls (file u) + length (tree u))%nat.
Proof.
  rewrite flush_cases; cbn zeta.
  destruct (walk_to_file_trace disk (tree u) (file u))
    as (w & r & Ht & _ & Hn & Hok & _).
  destruct (fst (tree_walk (unique_write_to_file disk) (tree u) (file u)));
    simpl; [discriminate|].
  destruct dyn_ok; simpl; [|discriminate].
  intros E; injection E as <-; cbn [file].
  rewrite Hn, Ht, (Hok eq_refl), app_nil_r; lia.
Qed.

Lemma flush_writes_bound (disk : nat -> bool) (dyn_ok : bool) (u : Unique) :
  (length (contents (file u)) <= write_calls (file u))%nat ->
  (length (contents (file (snd (flush disk dyn_ok u))))
   <= write_calls (file (snd (flush disk dyn_ok u))))%nat.
Proof.
  rewrite flush_cases; cbn zeta.
  destruct (walk_to_file_trace disk (tree u) (file u))
    as (w & r & Ht & Hc & Hn & _ & _).
  assert (Hlen : length (contents (snd (tree_walk (unique_write_to_file disk)
                                          (tree u) (file u))))
                 = (length (contents (file u)) + length w)%nat)
    by (rewrite Hc, length_app; reflexivity).
  destruct (fst (tree_walk (unique_write_to_file disk) (tree u) (file u)));
    [|destruct dyn_ok]; cbn [fst snd orb negb file]; lia.
Qed.

(** X1.  A [flush] that reports success has issued exactly one write per
    key of the tree, appended the tree's keys in ascending order at the
    end of the temp store, advanced the store position by
    [size * elements_in_tree], recorded the run (old position, key
    count) at the end of the directory, added the count to [elements]
    and emptied the tree. *)
Theorem flush_success_effect (disk : nat -> bool) (dyn_ok : bool)
  (u u' : Unique) :
  flush disk dyn_ok u = (false, u') ->
  contents (file u') = contents (file u) ++ tree u
  /\ write_calls (file u') = (write_calls (file u) + length (tree u))%nat
  /\ my_b_tell u' = my_b_tell u + size u * elements_in_tree (tree u)
  /\ file_ptrs u'
     = file_ptrs u ++ [mkBuffpek (my_b_tell u) (elements_in_tree (tree u))]
  /\ elements u' = elements u + elements_in_tree (tree u)
  /\ tree u' = []
  /\ size u' = size u.
Proof.
  intros E.
  pose proof (flush_ok_inv disk dyn_ok u u' E) as (E1 & E2 & E3 & E4 & E5).
  repeat split; auto.
  - apply (flush_ok_writes disk dyn_ok u u' E).
  - unfold my_b_tell, elements_in_tree; rewrite E1, E5, length_app; lia.
Qed.

(** X2.  A [flush] that reports failure loses nothing and records
    nothing: the tree and the directory are as before, and the store
    has grown by a prefix of the tree's keys.  When the failure is a
    failing write ([insert_dynamic] would have succeeded), that prefix
    is proper and exactly one more write was issued than keys were
    appended: the walk stops at the first failing write. *)
Theorem flush_failure_effect (disk : nat -> bool) (dyn_ok : bool)
  (u u' : Unique) :
  flush disk dyn_ok u = (true, u') ->
  tree u' = tree u
  /\ file_ptrs u' = file_ptrs u
  /\ exists written rest,
       tree u = written ++ rest
       /\ contents (file u') = contents (file u) ++ written
       /\ (dyn_ok = true ->
           rest <> []
           /\ write_calls (file u')
              = (write_calls (file u) + length written + 1)%nat).
Proof.
  rewrite flush_cases; cbn zeta.
  destruct (walk_to_file_trace disk (tree u) (file u))
    as (w & r & Ht & Hc & Hn & Hok & Hko).
  destruct (fst (tree_walk (unique_write_to_file disk) (tree u) (file u)))
    eqn:Ew; simpl.
  - intros E; injection E as <-; cbn [tree file_ptrs file].
    split; [reflexivity|]; split; [reflexivity|].
    exists w, r; repeat split; auto.
  - destruct dyn_ok; simpl; [discriminate|].
    intros E; injection E as <-; cbn [tree file_ptrs file].
    split; [reflexivity|]; split; [reflexivity|].
    exists w, r; repeat split; auto; discriminate.
Qed.

(** ** Reading runs back *)

Lemma read_run_new (sz : Z) (pre t : list K) :
  0 < sz ->
  read_run sz (pre ++ t)
    (mkBuffpek (sz * Z.of_nat (length pre)) (Z.of_nat (length t))) = t.
Proof.
  intros Hsz; unfold read_run; cbn [file_pos count].
  rewrite Z.mul_comm, Z.div_mul, !Nat2Z.id by lia.
  rewrite skipn_app, skipn_all, Nat.sub_diag; simpl.
  apply firstn_all.
Qed.

Lemma read_run_stable (sz : Z) (store extra : list K) (p : BUFFPEK) :
  0 < sz -> 0 <= file_pos p -> 0 <= count p ->
  file_pos p + sz * count p <= sz * Z.of_nat (length store) ->
  read_run sz (store ++ extra) p = read_run sz store p.
Proof.
  intros Hsz Hp Hc Hb; unfold read_run.
  assert (Hq : 0 <= file_pos p / sz) by (apply Z.div_pos; lia).
  pose proof (Z.mul_div_le (file_pos p) sz Hsz) as Hle.
  assert (Hlen : (Z.to_nat (file_pos p / sz) + Z.to_nat (count p)
                  <= length store)%nat) by nia.
  rewrite skipn_app.
  replace (Z.to_nat (file_pos p / sz) - length store)%nat with 0%nat by lia.
  rewrite skipn_O, firstn_app, length_skipn.
  replace (Z.to_nat (count p)
           - (length store - Z.to_nat (file_pos p / sz)))%nat
    with 0%nat by lia.
  rewrite firstn_O; apply app_nil_r.
Qed.

(** X3.  Write and read round trip: after a successful [flush] the run
    it recorded, read from the store at its offset, is the flushed
    tree, key for key. *)
Theorem flush_run_reads_back (disk : nat -> bool) (dyn_ok : bool)
  (u u' : Unique) :
  0 < size u ->
  flush disk dyn_ok u = (false, u') ->
  exists p,
    file_ptrs u' = file_ptrs u ++ [p]
    /\ read_run (size u') (contents (file u')) p = tree u.
Proof.
  intros Hsz E.
  apply flush_ok_inv in E as (E1 & _ & _ & E4 & E5).
  eexists; split; [exact E4|].
  rewrite E1, E5; unfold my_b_tell, elements_in_tree.
  apply read_run_new; assumption.
Qed.

Lemma step_grows_store (disk : nat -> bool) (u : Unique) (o : op) :
  size (snd (step disk u o)) = size u
  /\ (exists w, contents (file (snd (step disk u o)))
                = contents (file u) ++ w)
  /\ (file_ptrs (snd (step disk u o)) = file_ptrs u
      \/ file_ptrs (snd (step disk u o))
         = file_ptrs u
           ++ [mkBuffpek (my_b_tell u) (elements_in_tree (tree u))]
         /\ contents (file (snd (step disk u o)))
            = contents (file u) ++ tree u).
Proof.
  destruct o as [k|dyn_ok]; simpl.
  - split; [reflexivity|]; split; [exists []; symmetry; apply app_nil_r|].
    left; reflexivity.
  - destruct (flush disk dyn_ok u) as [[|] u'] eqn:E; simpl.
    + apply flush_failed_inv in E as (E1 & _ & _ & E4 & E5); auto.
    + apply flush_ok_inv in E as (E1 & _ & _ & E4 & E5).
      split; [assumption|]; split; [eauto|]; right; auto.
Qed.

Lemma runs_in_store_step (disk : nat -> bool) (sz : Z) (u : Unique) (o : op) :
  0 < sz -> runs_in_store sz u -> runs_in_store sz (snd (step disk u o)).
Proof.
  intros Hsz (Hs & Hb).
  destruct (step_grows_store disk u o) as (E1 & (w & E2) & E3).
  assert (Hgrow : my_b_tell u <= my_b_tell (snd (step disk u o))).
  { unfold my_b_tell; rewrite E1, E2, length_app, Hs; nia. }
  split; [congruence|].
  assert (Hold : Forall (fun q => 0 <= file_pos q /\ 0 <= count q
                           /\ file_pos q + sz * count q
                              <= my_b_tell (snd (step disk u o)))
                   (file_ptrs u)).
  { eapply Forall_impl; [|exact Hb]; simpl; intros q Hq; lia. }
  destruct E3 as [-> | [-> E4]]; [exact Hold|].
  apply Forall_app; split; [exact Hold|].
  constructor; [|constructor]; cbn [file_pos count].
  unfold my_b_tell, elements_in_tree in *.
  rewrite E1, E4, length_app, Hs; nia.
Qed.

Lemma runs_in_store_run (disk : nat -> bool) (sz : Z) (ops : list op)
  (u : Unique) :
  0 < sz -> runs_in_store sz u -> runs_in_store sz (snd (run disk ops u)).
Proof.
  intros Hsz; revert u; induction ops as [|o ops IH]; intros u Hu; simpl; auto.
  pose proof (runs_in_store_step disk sz u o Hsz Hu) as Hs.
  destruct (step disk u o) as [e1 u1]; simpl in Hs.
  specialize (IH u1 Hs).
  destruct (run disk ops u1) as [e2 u2]; auto.
Qed.

(** X4.  A recorded run is immutable: after any history on a fresh
    instance, failing operations included, one more operation keeps
    every descriptor of the directory and leaves the keys each
    descriptor reads from the store unchanged. *)
Theorem recorded_runs_immutable (disk : nat -> bool) (ops : list op) (o : op)
  (sz mem : Z) (p : BUFFPEK) :
  0 < sz ->
  let u := snd (run disk ops (Unique_new sz mem)) in
  let u' := snd (step disk u o) in
  In p (file_ptrs u) ->
  In p (file_ptrs u')
  /\ read_run sz (contents (file u')) p = read_run sz (contents (file u)) p.
Proof.
  intros Hsz u u' Hin.
  assert (Hu : runs_in_store sz u).
  { apply runs_in_store_run; [assumption|].
    split; [reflexivity | constructor]. }
  destruct Hu as (Hs & Hb).
  rewrite Forall_forall in Hb; specialize (Hb p Hin).
  destruct (step_grows_store disk u o) as (_ & (w & E2) & E3); fold u' in E2, E3.
  split.
  - destruct E3 as [-> | [-> _]]; [assumption | apply in_app_iff; auto].
  - rewrite E2; apply read_run_stable; try lia.
    unfold my_b_tell in Hb; rewrite Hs in Hb; lia.
Qed.

(** ** The layout of the store *)

Lemma store_layout_step (disk : nat -> bool) (sz : Z) (u u' : Unique) (o : op) :
  store_layout sz u -> step disk u o = (false, u') -> store_layout sz u'.
Proof.
  intros (Hs & He & rs & Hc & Hp).
  destruct o as [k|dyn_ok]; simpl.
  - intros E; injection E as <-; simpl.
    split; [assumption|]; split; [assumption|]; eauto.
  - intros E; apply flush_ok_inv in E as (E1 & E2 & _ & E4 & E5).
    split; [congruence|]; split.
    + rewrite E2, E5, He, length_app; unfold elements_in_tree; lia.
    + exists (rs ++ [tree u]); split.
      * rewrite concat_app, E5, Hc; simpl; rewrite app_nil_r; reflexivity.
      * rewrite E4, Hp, describe_snoc; unfold my_b_tell, elements_in_tree.
        rewrite Hs, Hc; reflexivity.
Qed.

Lemma store_layout_run (disk : nat -> bool) (sz : Z) (ops : list op) :
  forall u,
    store_layout sz u ->
    fst (run disk ops u) = false ->
    store_layout sz (snd (run disk ops u)).
Proof.
  induction ops as [|o ops IH]; intros u Hu; simpl; auto.
  destruct (step disk u o) as [e1 u1] eqn:E1.
  specialize (IH u1).
  destruct (run disk ops u1) as [e2 u2]; simpl in *.
  intros E; apply orb_false_iff in E as [-> ->].
  apply IH; auto.
  eapply store_layout_step; eauto.
Qed.

Lemma store_layout_new (sz mem : Z) : store_layout sz (Unique_new sz mem).
Proof.
  split; [reflexivity|]; split; [reflexivity|].
  exists []; split; reflexivity.
Qed.

Lemma describe_counts {A : Type} (sz : Z) (f : BUFFPEK -> list A) :
  forall (rs : list (list K)) (out : list (list A)) pos,
    map f (describe sz pos rs) = out ->
    Forall2 (fun r o => length r = length o) rs out ->
    Forall (fun p => count p = Z.of_nat (length (f p))) (describe sz pos rs).
Proof.
  induction rs as [|r rs IH]; intros out pos E HF; simpl; constructor.
  - simpl in E; subst out; inversion HF; subst; cbn [count]; congruence.
  - simpl in E; subst out; inversion HF; subst; eapply IH; eauto.
Qed.

(** X5.  After a failure-free history the directory covers the store
    exactly: reading the runs in directory order gives the whole store
    back (no gap, no overlap, nothing outside a run), each descriptor's
    count is the length of its run, and the store position is
    [size * elements]. *)
Theorem directory_covers_store (disk : nat -> bool) (ops : list op)
  (sz mem : Z) :
  0 < sz ->
  fst (run disk ops (Unique_new sz mem)) = false ->
  let u := snd (run disk ops (Unique_new sz mem)) in
  concat (map (read_run sz (contents (file u))) (file_ptrs u))
    = contents (file u)
  /\ Forall (fun p => count p
                      = Z.of_nat (length (read_run sz (contents (file u)) p)))
       (file_ptrs u)
  /\ my_b_tell u = sz * elements u.
Proof.
  intros Hsz Hrun u.
  destruct (store_layout_run disk sz ops _ (store_layout_new sz mem) Hrun)
    as (Hs & He & rs & Hc & Hp); fold u in Hs, He, Hc, Hp.
  pose proof (read_runs_describe sz rs Hsz []) as Hread.
  simpl in Hread; rewrite Z.mul_0_r in Hread.
  rewrite Hc, Hp.
  split; [rewrite Hread; reflexivity|].
  split.
  - apply (describe_counts sz _ rs rs 0 Hread).
    clear; induction rs; constructor; auto.
  - unfold my_b_tell; rewrite Hs, He; reflexivity.
Qed.

(** ** [Unique::get]: the record count *)

Lemma merge2_length (a b : list K) :
  length (merge2 a b) = (length a + length b)%nat.
Proof.
  revert b; induction a as [|x a IH]; intros b; [reflexivity|].
  induction b as [|y b IHb]; [rewrite merge2_nil_r; simpl; lia|].
  rewrite merge2_cons.
  destruct (ptr_compare x y <=? 0); cbn [length].
  - rewrite IH; cbn [length]; lia.
  - rewrite IHb; cbn [length]; lia.
Qed.

Lemma merge_all_length (rs : list (list K)) :
  length (fold_right merge2 [] rs) = length (concat rs).
Proof.
  induction rs as [|r rs IH]; simpl; [reflexivity|].
  rewrite merge2_length, length_app, IH; reflexivity.
Qed.

Lemma skip_dups_length (l : list K) :
  forall prev, (length (skip_dups prev l) <= length l)%nat.
Proof.
  induction l as [|x l IH]; intros prev; simpl; [lia|].
  destruct (ptr_compare prev x =? 0); simpl.
  - specialize (IH prev); lia.
  - specialize (IH x); lia.
Qed.

Lemma suppress_adjacent_length (l : list K) :
  (length (suppress_adjacent l) <= length l)%nat.
Proof.
  destruct l as [|x l]; simpl; [lia|].
  pose proof (skip_dups_length l x); lia.
Qed.

Lemma get_found_records (disk : nat -> bool) (e : get_env) (u : Unique) :
  found_records (snd (get disk e u))
  = elements u + elements_in_tree (tree u).
Proof.
  unfold get.
  destruct ((my_b_tell u =? 0) && flat_alloc_ok e); [reflexivity|].
  destruct (flush disk (insert_dynamic_ok e) u) as [[|] u1]; [reflexivity|].
  destruct (negb (outfile_ok e)); [reflexivity|].
  destruct (negb (sort_buffer_ok e)); reflexivity.
Qed.

(** X6.  On every call, failing or not, [get] reports as
    [found_records] the sum [elements + elements_in_tree] of the
    instance as it was at the call.  After a failure-free history and a
    successful [get]: the result holds at most [found_records] keys;
    the flat region is returned exactly when the store position is 0
    and the region could be allocated, whatever the directory holds (a
    directory of empty runs included), and then it is the tree, of
    [size * elements_in_tree] bytes, and [found_records] is its exact
    length; otherwise the result is the output stream, and the count
    includes the duplicates across runs that the merge removes.  The
    merge is the interface contract of [merge_buffers]. *)
Theorem found_records_bounds_result (disk : nat -> bool) (e : get_env)
  (ops : list op) (sz mem : Z) (u' : Unique) (t : FILESORT_INFO) :
  0 < sz ->
  fst (run disk ops (Unique_new sz mem)) = false ->
  let u := snd (run disk ops (Unique_new sz mem)) in
  get disk e u = (false, u', t) ->
  (forall e0 u0,
      found_records (snd (get disk e0 u0))
      = elements u0 + elements_in_tree (tree u0))
  /\ found_records t = elements u + elements_in_tree (tree u)
  /\ Z.of_nat (length (sort_result t)) <= found_records t
  /\ (my_b_tell u = 0 -> flat_alloc_ok e = true ->
      record_pointers t = Some (sz * elements_in_tree (tree u), tree u)
      /\ io_cache t = None
      /\ Z.of_nat (length (sort_result t)) = found_records t)
  /\ (my_b_tell u <> 0 \/ flat_alloc_ok e = false ->
      record_pointers t = None /\ exists out, io_cache t = Some out).
Proof.
  intros Hsz Hrun u.
  pose proof (store_layout_run disk sz ops _ (store_layout_new sz mem) Hrun)
    as Hu.
  fold u in Hu.
  intros Hget.
  split; [intros e0 u0; apply get_found_records|].
  split; [pose proof (get_found_records disk e u) as H;
          rewrite Hget in H; exact H|].
  revert Hget.
  destruct ((my_b_tell u =? 0) && flat_alloc_ok e) eqn:Efast.
  - apply andb_true_iff in Efast as [Et Ea]; apply Z.eqb_eq in Et.
    rewrite (get_fast_path disk e u Et Ea).
    intros E; injection E as _ <-; cbn [sort_result io_cache record_pointers
                                        found_records].
    destruct Hu as (Hs & He & _).
    assert (Hel : elements u = 0).
    { unfold my_b_tell in Et; rewrite Hs in Et; nia. }
    unfold elements_in_tree; rewrite Hs, Hel.
    split; [lia|]; split.
    + intros _ _; repeat split; lia.
    + intros [H|H]; [contradiction | congruence].
  - rewrite (get_slow_path disk e u Efast); unfold get_merge_path.
    destruct (flush disk (insert_dynamic_ok e) u) as [[|] u1] eqn:Ef;
      cbn [fst snd]; [discriminate|].
    destruct (outfile_ok e); cbn [negb]; [|discriminate].
    destruct (sort_buffer_ok e); cbn [negb]; [|discriminate].
    destruct (merge_many_buff_ok e && file_reinit_ok e && merge_buffers_ok e);
      cbn [negb orb]; [|discriminate].
    intros E; injection E as _ _ <-; cbn [sort_result io_cache record_pointers
                                          found_records].
    split; [|split].
    + assert (Hu1 : store_layout sz u1)
        by (apply (store_layout_step disk sz u u1
                     (OpFlush (insert_dynamic_ok e)) Hu Ef)).
      apply flush_ok_inv in Ef as (_ & E2 & _).
      destruct Hu1 as (Hs1 & He1 & rs & Hc1 & Hp1).
      pose proof (read_runs_describe sz rs Hsz []) as Hread.
      simpl in Hread; rewrite Z.mul_0_r in Hread.
      unfold merge_runs; rewrite Hs1, Hc1, Hp1, Hread.
      pose proof (suppress_adjacent_length (fold_right merge2 [] rs)) as Hle.
      rewrite merge_all_length, <- Hc1 in Hle.
      rewrite <- E2, He1; lia.
    + intros Ht Ha; apply Z.eqb_eq in Ht; rewrite Ht, Ha in Efast.
      discriminate.
    + intros _; split; [reflexivity | eauto].
Qed.

(** ** The merge simulation: the sign of the cost *)

Lemma sum_elems_nonneg (b : Z -> Z) (n : nat) :
  forall first acc, 0 <= acc -> 0 <= sum_elems b first n acc.
Proof.
  induction n as [|n IH]; intros first acc Ha; cbn [sum_elems]; [assumption|].
  apply IH; unfold uint.
  pose proof (Z.mod_pos_bound (acc + b first) (2 ^ 32) eq_refl); lia.
Qed.

(** The logarithm is taken of a positive number of sequences. *)
Lemma get_merge_buffers_cost_nonneg (b : Z -> Z) (elem_size first last : Z) :
  0 < IO_SIZE -> (0 < TIME_FOR_COMPARE_ROWID)%R ->
  0 <= elem_size -> first <= last ->
  (0 <= fst (get_merge_buffers_cost b elem_size first last))%R.
Proof.
  intros HIO HT He Hfl; unfold get_merge_buffers_cost; cbn [fst].
  pose proof ln2_pos as H2.
  assert (0 <= IZR (sum_elems b first (Z.to_nat (last - first + 1)) 0))%R
    by (apply IZR_le, sum_elems_nonneg; lia).
  assert (0 <= IZR elem_size)%R by (apply IZR_le; assumption).
  assert (0 < IZR IO_SIZE)%R by (apply IZR_lt; assumption).
  assert (0 <= ln (IZR (last - first + 1)))%R.
  { rewrite <- ln_1; apply ln_mono; [lra | apply IZR_le; lia]. }
  apply Rplus_le_le_0_compat; unfold Rdiv; apply Rmult_le_pos;
    try (left; apply Rinv_0_lt_compat); nra.
Qed.

Lemma collapse_total_cost (elem_size : Z) (st : sim) (first last : Z) :
  total_cost (collapse elem_size st first last)
  = (total_cost st
     + fst (get_merge_buffers_cost (buff_elems st) (uint elem_size)
              first last))%R.
Proof.
  unfold collapse.
  destruct (get_merge_buffers_cost (buff_elems st) (uint elem_size) first last);
    reflexivity.
Qed.

Lemma collapse_cost_le (elem_size : Z) (st : sim) (first last : Z) :
  0 < IO_SIZE -> (0 < TIME_FOR_COMPARE_ROWID)%R -> first <= last ->
  (total_cost st <= total_cost (collapse elem_size st first last))%R.
Proof.
  intros HIO HT Hfl; rewrite collapse_total_cost.
  pose proof (get_merge_buffers_cost_nonneg (buff_elems st) (uint elem_size)
                first last HIO HT) as H.
  unfold uint in H at 1.
  pose proof (Z.mod_pos_bound elem_size (2 ^ 32) eq_refl).
  specialize (H ltac:(lia) Hfl); lra.
Qed.

Lemma int_of_uint_le (m : Z) : 0 <= m < 2 ^ 32 -> int_of_uint m <= m.
Proof. intros H; destruct (int_of_uint_cases m H) as [[_ ->]|[_ ->]]; lia. Qed.

Lemma merge_groups_cost_le (elem_size : Z) :
  0 < MERGEBUFF -> 0 < IO_SIZE -> (0 < TIME_FOR_COMPARE_ROWID)%R ->
  forall fuel i st i' st',
    merge_groups fuel elem_size i st = Some (i', st') ->
    (total_cost st <= total_cost st')%R
    /\ maxbuffer st' = maxbuffer st
    /\ (i' = i
        \/ i' <= int_of_uint (maxbuffer st) - MERGEBUFF * 3 / 2 + MERGEBUFF).
Proof.
  intros HB HIO HT; induction fuel as [|fuel IH]; intros i st i' st';
    cbn [merge_groups]; [discriminate|].
  destruct (loop_bound (maxbuffer st)) as [x|] eqn:Ex; [|discriminate].
  apply loop_bound_eq in Ex; subst x.
  destruct (i <=? int_of_uint (maxbuffer st) - MERGEBUFF * 3 / 2) eqn:E.
  - intros H; apply IH in H as (H1 & H2 & H3).
    rewrite (proj1 (collapse_fields _ _ _ _)) in H2, H3.
    pose proof (collapse_cost_le elem_size st i (i + MERGEBUFF - 1) HIO HT
                  ltac:(lia)).
    split; [lra|]; split; [assumption|]; right; lia.
  - intros H; injection H as <- <-; split; [lra|]; auto.
Qed.

Lemma merge_pass_cost_le (elem_size : Z) (fuel : nat) (st st' : sim) :
  0 < MERGEBUFF -> 0 < IO_SIZE -> (0 < TIME_FOR_COMPARE_ROWID)%R ->
  0 <= maxbuffer st < 2 ^ 32 ->
  merge_pass fuel elem_size st = Some st' ->
  (total_cost st <= total_cost st')%R /\ 0 <= maxbuffer st' < 2 ^ 32.
Proof.
  intros HB HIO HT Hm; unfold merge_pass.
  destruct (merge_groups fuel elem_size 0
              (mkSim (total_cost st) (buff_elems st) 0 (maxbuffer st)))
    as [[i st1]|] eqn:E; [|discriminate].
  apply (merge_groups_cost_le elem_size HB HIO HT) in E as (H1 & H2 & H3).
  cbn [total_cost maxbuffer] in H1, H2, H3.
  intros H; injection H as <-; cbn [total_cost maxbuffer].
  split; [|unfold uint; apply Z.mod_pos_bound; reflexivity].
  assert (Hh : MERGEBUFF <= MERGEBUFF * 3 / 2)
    by (apply Z.div_le_lower_bound; lia).
  pose proof (int_of_uint_le (maxbuffer st) Hm).
  pose proof (collapse_cost_le elem_size st1 i (maxbuffer st1) HIO HT
                ltac:(lia)) as Hle.
  rewrite collapse_total_cost in Hle.
  unfold get_merge_buffers_cost in Hle; cbn [fst] in Hle; lra.
Qed.

Lemma merge_passes_cost_le (elem_size : Z) :
  0 < MERGEBUFF -> 0 < IO_SIZE -> (0 < TIME_FOR_COMPARE_ROWID)%R ->
  forall fuel st st',
    0 <= maxbuffer st < 2 ^ 32 ->
    merge_passes fuel elem_size st = Some st' ->
    (total_cost st <= total_cost st')%R /\ 0 <= maxbuffer st' < 2 ^ 32.
Proof.
  intros HB HIO HT; induction fuel as [|fuel IH]; intros st st' Hm;
    cbn [merge_passes]; [discriminate|].
  destruct (MERGEBUFF2 <=? maxbuffer st).
  - destruct (merge_pass (S fuel) elem_size st) as [st1|] eqn:E;
      [|discriminate].
    apply (merge_pass_cost_le elem_size (S fuel) st st1 HB HIO HT Hm)
      in E as (H1 & H2).
    intros H; apply IH in H as (H3 & H4); [|assumption].
    split; [lra | assumption].
  - intros H; injection H as <-; split; [lra | assumption].
Qed.

(** With enough loop iterations the simulation returns a cost, and the
    cost is not negative. *)
Lemma merge_cost_defined_nonneg (fuel : nat) (buffer : Z -> Z)
  (m max_n_elems last_n_elems elem_size : Z) :
  4 < MERGEBUFF -> 7 < MERGEBUFF2 ->
  0 < IO_SIZE -> (0 < TIME_FOR_COMPARE_ROWID)%R ->
  0 <= m < 2 ^ 31 -> m + 2 <= Z.of_nat fuel ->
  exists c,
    get_merge_many_buffs_cost fuel buffer m max_n_elems last_n_elems elem_size
    = Some c
    /\ (0 <= c)%R.
Proof.
  intros HB HT2 HIO HT Hm Hf; unfold get_merge_many_buffs_cost.
  assert (Hm' : 0 <= m < 2 ^ 32)
    by (change (2 ^ 31) with 2147483648 in Hm;
        change (2 ^ 32) with 4294967296; lia).
  destruct (merge_passes_total elem_size HB HT2 fuel
              (sim_init buffer m max_n_elems last_n_elems) Hm') as [st E];
    [cbn [maxbuffer sim_init]; rewrite loop_bound_int by exact Hm;
     discriminate | exact Hf |].
  rewrite E; eexists; split; [reflexivity|].
  apply (merge_passes_cost_le elem_size ltac:(lia) HIO HT) in E as (H1 & H2);
    [|exact Hm'].
  cbn [total_cost sim_init] in H1.
  pose proof (collapse_cost_le elem_size st 0 (maxbuffer st) HIO HT
                ltac:(lia)).
  lra.
Qed.

(** X7.  When the memory budget holds at least one element and the run
    count fits an [int], [get_use_cost] returns a value: the division is
    defined and the merge simulation ends within the given run count.
    When a merge is needed (at least one full tree), the simulated merge
    cost is not negative, so the exit [if (merge_cost < 0.0) return
    merge_cost] is never taken and the estimate is the sum of the
    tree-build, write, merge and read terms. *)
Theorem get_use_cost_sums_all_terms (buffer : Z -> Z)
  (nkeys key_size mem : Z) :
  4 < MERGEBUFF -> 7 < MERGEBUFF2 ->
  0 < IO_SIZE -> (0 < TIME_FOR_COMPARE_ROWID)%R ->
  0 <= sizeof_TREE_ELEMENT -> 0 < key_size ->
  ALIGN_SIZE (sizeof_TREE_ELEMENT + key_size) <= mem ->
  0 <= nkeys ->
  nkeys / max_elements_in_tree key_size mem < 2 ^ 31 ->
  let mx := max_elements_in_tree key_size mem in
  let n := nkeys / mx in
  let last := nkeys mod mx in
  exists r,
    get_use_cost buffer nkeys key_size mem = Some r
    /\ (n = 0 -> r = create_trees_cost 0 mx last)
    /\ (n <> 0 ->
        exists merge_cost,
          get_merge_many_buffs_cost (S (S (Z.to_nat n))) buffer
            n (uint mx) (uint last) (int_of_uint key_size) = Some merge_cost
          /\ (0 <= merge_cost)%R
          /\ r = (create_trees_cost n mx last
                  + write_trees_cost n mx last key_size
                  + merge_cost
                  + ceil (IZR key_size * IZR nkeys / IZR IO_SIZE))%R).
Proof.
  intros HB HT2 HIO HT Hs Hk Hmem Hkeys Hint mx n last.
  assert (Hmx : 0 < mx).
  { unfold mx, max_elements_in_tree.
    pose proof (ALIGN_SIZE_pos (sizeof_TREE_ELEMENT + key_size)).
    apply Z.div_str_pos; lia. }
  assert (Hn : 0 <= n) by (apply Z.div_pos; lia).
  fold mx in Hint; fold n in Hint.
  change (2 ^ 31) with 2147483648 in Hint.
  assert (Hin : int_of_uint n = n)
    by (apply int_of_uint_small; change (2 ^ 31) with 2147483648; lia).
  assert (Hun : uint n = n)
    by (apply uint_small; change (2 ^ 32) with 4294967296; lia).
  unfold get_use_cost; fold mx; fold n; fold last.
  destruct (mx =? 0) eqn:E0; [lia|].
  rewrite Hin.
  destruct (n =? 0) eqn:En.
  - eexists; split; [reflexivity|]; split; [|lia].
    intros _; apply Z.eqb_eq in En; rewrite En; reflexivity.
  - rewrite Hun.
    destruct (merge_cost_defined_nonneg (S (S (Z.to_nat n))) buffer n
                (uint mx) (uint last) (int_of_uint key_size) HB HT2 HIO HT)
      as (c & Ec & Hc);
      [change (2 ^ 31) with 2147483648; lia | lia |].
    rewrite Ec.
    destruct (Rlt_dec c 0) as [Hneg|_]; [lra|].
    eexists; split; [reflexivity|]; split; [lia|].
    intros _; exists c; repeat split; assumption.
Qed.

(** ** The merge simulation: the scratch buffer *)

Lemma sum_elems_ext (b1 b2 : Z -> Z) (n : nat) :
  forall first acc,
    (forall j, first <= j < first + Z.of_nat n -> b1 j = b2 j) ->
    sum_elems b1 first n acc = sum_elems b2 first n acc.
Proof.
  induction n as [|n IH]; intros first acc Hb; cbn [sum_elems]; [reflexivity|].
  rewrite (Hb first) by lia.
  apply IH; intros j Hj; apply Hb; lia.
Qed.

Lemma collapse_agree (elem_size top : Z) (s1 s2 : sim) (first last : Z) :
  sim_agree top s1 s2 -> 0 <= first -> last <= top ->
  sim_agree top (collapse elem_size s1 first last)
    (collapse elem_size s2 first last).
Proof.
  intros (Hc & Hl & Hm & Hb) Hf Hlast.
  assert (Hsum : sum_elems (buff_elems s1) first
                   (Z.to_nat (last - first + 1)) 0
                 = sum_elems (buff_elems s2) first
                     (Z.to_nat (last - first + 1)) 0).
  { apply sum_elems_ext; intros j Hj; apply Hb; lia. }
  unfold collapse, get_merge_buffers_cost, sim_agree;
    cbn [total_cost lastbuff maxbuffer buff_elems].
  rewrite Hsum, Hc, Hl, Hm.
  repeat split.
  intros j Hj; unfold store; rewrite (Hb j Hj); reflexivity.
Qed.

Lemma merge_groups_agree (elem_size top : Z) :
  0 < MERGEBUFF -> top < 2 ^ 32 ->
  forall fuel i s1 s2,
    sim_agree top s1 s2 -> 0 <= i -> 0 <= maxbuffer s1 <= top ->
    match merge_groups fuel elem_size i s1,
          merge_groups fuel elem_size i s2 with
    | Some (i1, a), Some (i2, b) =>
        i1 = i2 /\ 0 <= i1 /\ maxbuffer a = maxbuffer s1 /\ sim_agree top a b
    | None, None => True
    | _, _ => False
    end.
Proof.
  intros HB Htop; induction fuel as [|fuel IH]; intros i s1 s2 Hs Hi Hm;
    cbn [merge_groups]; [exact I|].
  pose proof Hs as (_ & _ & Hmb & _); rewrite <- Hmb.
  destruct (loop_bound (maxbuffer s1)) as [x|] eqn:Ex; [|exact I].
  apply loop_bound_eq in Ex; subst x.
  destruct (i <=? int_of_uint (maxbuffer s1) - MERGEBUFF * 3 / 2) eqn:E.
  - assert (Hh : MERGEBUFF <= MERGEBUFF * 3 / 2)
      by (apply Z.div_le_lower_bound; lia).
    pose proof (int_of_uint_le (maxbuffer s1) ltac:(lia)).
    assert (Hc : sim_agree top (collapse elem_size s1 i (i + MERGEBUFF - 1))
                   (collapse elem_size s2 i (i + MERGEBUFF - 1)))
      by (apply collapse_agree; [assumption | lia | lia]).
    exact (IH (i + MERGEBUFF) _ _ Hc ltac:(lia) Hm).
  - auto.
Qed.

Lemma merge_pass_agree (elem_size top : Z) (fuel : nat) (s1 s2 : sim) :
  0 < MERGEBUFF -> top < 2 ^ 32 ->
  sim_agree top s1 s2 -> 0 <= maxbuffer s1 <= top ->
  match merge_pass fuel elem_size s1, merge_pass fuel elem_size s2 with
  | Some a, Some b => sim_agree top a b
  | None, None => True
  | _, _ => False
  end.
Proof.
  intros HB Htop Hs Hm; unfold merge_pass.
  pose proof Hs as (Hc & _ & Hmb & Hb).
  pose proof (merge_groups_agree elem_size top HB Htop fuel 0
                (mkSim (total_cost s1) (buff_elems s1) 0 (maxbuffer s1))
                (mkSim (total_cost s2) (buff_elems s2) 0 (maxbuffer s2))) as H.
  specialize (H ltac:(repeat split; assumption) ltac:(lia) Hm).
  destruct (merge_groups fuel elem_size 0
              (mkSim (total_cost s1) (buff_elems s1) 0 (maxbuffer s1)))
    as [[i1 a]|];
    destruct (merge_groups fuel elem_size 0
                (mkSim (total_cost s2) (buff_elems s2) 0 (maxbuffer s2)))
    as [[i2 b]|]; try contradiction; [|exact I].
  destruct H as (<- & Hi & Hma & Hab); cbn [maxbuffer] in Hma.
  pose proof Hab as (_ & _ & Hmab & _).
  rewrite <- Hmab.
  pose proof (collapse_agree elem_size top a b i1 (maxbuffer a) Hab Hi
                ltac:(lia)) as (H1 & H2 & H3 & H4).
  unfold sim_agree; cbn [total_cost lastbuff maxbuffer buff_elems].
  rewrite H1, H2; repeat split; assumption.
Qed.

Lemma merge_passes_agree (elem_size top : Z) :
  4 < MERGEBUFF -> 7 < MERGEBUFF2 -> top < 2 ^ 31 ->
  forall fuel s1 s2,
    sim_agree top s1 s2 -> 0 <= maxbuffer s1 <= top ->
    maxbuffer s1 + 2 <= Z.of_nat fuel ->
    exists a b,
      merge_passes fuel elem_size s1 = Some a
      /\ merge_passes fuel elem_size s2 = Some b
      /\ sim_agree top a b
      /\ 0 <= maxbuffer a <= top.
Proof.
  intros HB HT2 Htop; induction fuel as [|fuel IH]; intros s1 s2 Hs Hm Hf;
    [lia|].
  assert (Htop' : top < 2 ^ 32)
    by (change (2 ^ 31) with 2147483648 in Htop;
        change (2 ^ 32) with 4294967296; lia).
  cbn [merge_passes].
  pose proof Hs as (_ & _ & Hmb & _); rewrite <- Hmb.
  destruct (MERGEBUFF2 <=? maxbuffer s1) eqn:E; [|eauto 6].
  pose proof (loop_bound_int (maxbuffer s1) ltac:(lia)) as Hx.
  assert (Hit : iterations 0 (maxbuffer s1 - MERGEBUFF * 3 / 2)
                < Z.of_nat (S fuel)).
  { pose proof (iterations_bound (maxbuffer s1) _ ltac:(lia) ltac:(lia) Hx);
      lia. }
  destruct (merge_pass_runs elem_size (S fuel) s1 _ ltac:(lia) Hx Hit)
    as (a1 & E1 & Hm1).
  rewrite Hmb in Hx, Hit.
  destruct (merge_pass_runs elem_size (S fuel) s2 _ ltac:(lia) Hx Hit)
    as (a2 & E2 & _).
  pose proof (merge_pass_agree elem_size top (S fuel) s1 s2 ltac:(lia) Htop'
                Hs Hm) as Hab.
  rewrite E1, E2 in Hab |- *.
  destruct (next_maxbuffer_decreases (maxbuffer s1) (maxbuffer a1) HB HT2
              ltac:(lia) ltac:(lia) Hm1) as [Hd _].
  apply IH; [assumption | lia | lia].
Qed.

Lemma sim_init_agree (b1 b2 : Z -> Z) (m max_n_elems last_n_elems : Z) :
  0 <= m < 2 ^ 31 ->
  sim_agree m (sim_init b1 m max_n_elems last_n_elems)
    (sim_init b2 m max_n_elems last_n_elems).
Proof.
  intros Hm; unfold sim_agree, sim_init;
    cbn [total_cost lastbuff maxbuffer buff_elems].
  repeat split.
  intros j Hj; unfold store.
  destruct (j =? m) eqn:E; [reflexivity|].
  rewrite int_of_uint_small by assumption.
  rewrite !fill_inside by lia; reflexivity.
Qed.

(** X8.  The estimate does not depend on what the scratch buffer holds
    when [get_use_cost] is called: for a run count in the range of
    [int], the simulation reads only slots [0..n_full_trees], and only
    after it has written them.  The caller may pass uninitialised
    memory. *)
Theorem get_use_cost_ignores_buffer (b1 b2 : Z -> Z)
  (nkeys key_size mem : Z) :
  4 < MERGEBUFF -> 7 < MERGEBUFF2 ->
  0 <= nkeys / max_elements_in_tree key_size mem < 2 ^ 31 ->
  get_use_cost b1 nkeys key_size mem = get_use_cost b2 nkeys key_size mem.
Proof.
  intros HB HT2 Hn; unfold get_use_cost.
  set (mx := max_elements_in_tree key_size mem) in *.
  set (n := nkeys / mx) in *.
  destruct (mx =? 0); [reflexivity|].
  change (2 ^ 31) with 2147483648 in Hn.
  assert (Hin : int_of_uint n = n)
    by (apply int_of_uint_small; change (2 ^ 31) with 2147483648; lia).
  assert (Hun : uint n = n)
    by (apply uint_small; change (2 ^ 32) with 4294967296; lia).
  rewrite Hin; destruct (n =? 0); [reflexivity|].
  rewrite Hun; unfold get_merge_many_buffs_cost.
  destruct (merge_passes_agree (int_of_uint key_size) n HB HT2
              ltac:(change (2 ^ 31) with 2147483648; lia)
              (S (S (Z.to_nat n)))
              (sim_init b1 n (uint mx) (uint (nkeys mod mx)))
              (sim_init b2 n (uint mx) (uint (nkeys mod mx))))
    as (a & b & Ea & Eb & Hab & Hma).
  - apply sim_init_agree; change (2 ^ 31) with 2147483648; lia.
  - cbn [maxbuffer sim_init]; lia.
  - cbn [maxbuffer sim_init]; lia.
  - rewrite Ea, Eb.
    pose proof Hab as (_ & _ & Hmab & _); rewrite <- Hmab.
    destruct (collapse_agree (int_of_uint key_size) n a b 0 (maxbuffer a) Hab
                ltac:(lia) ltac:(lia)) as (-> & _).
    reflexivity.
Qed.

(** ** The estimate in the two simplest regimes *)

(** X9.  Below the multi-pass threshold (between 1 and [MERGEBUFF2 - 1]
    full trees) the simulation performs the final merge only, and it
    charges it for exactly [nkeys] elements in [n_full_trees + 1]
    sequences: the estimate is the tree-build and write terms, plus
    [2*nkeys*key_size/IO_SIZE + nkeys*log2(n_full_trees+1) /
    TIME_FOR_COMPARE_ROWID], plus the read term. *)
Theorem get_use_cost_single_merge (buffer : Z -> Z) (nkeys key_size mem : Z) :
  (0 < TIME_FOR_COMPARE_ROWID)%R -> 0 < IO_SIZE ->
  MERGEBUFF2 <= 2 ^ 31 ->
  0 <= key_size < 2 ^ 31 ->
  0 <= nkeys < 2 ^ 32 ->
  0 < max_elements_in_tree key_size mem ->
  0 < nkeys / max_elements_in_tree key_size mem < MERGEBUFF2 ->
  let mx := max_elements_in_tree key_size mem in
  let n := nkeys / mx in
  get_use_cost buffer nkeys key_size mem
  = Some (create_trees_cost n mx (nkeys mod mx)
          + write_trees_cost n mx (nkeys mod mx) key_size
          + (2 * (IZR nkeys * IZR key_size) / IZR IO_SIZE
             + IZR nkeys * ln (IZR (n + 1))
               / (TIME_FOR_COMPARE_ROWID * ln 2))
          + ceil (IZR key_size * IZR nkeys / IZR IO_SIZE))%R.
Proof.
  intros HT HIO HM2 Hk Hkeys Hmax Hn mx n.
  rewrite (get_use_cost_no_pass buffer nkeys key_size mem HT HIO HM2 Hk Hkeys
             Hmax Hn).
  fold mx; fold n; unfold final_merge_cost.
  replace (n - 0 + 1) with (n + 1) by lia.
  rewrite Rplus_0_l; reflexivity.
Qed.

Lemma log2_n_fact_one : (log2_n_fact 1 < 0)%R.
Proof.
  rewrite log2_n_fact_eq by lra; rewrite ln_1.
  pose proof ln2_pos as H2.
  assert (Hpi : (PI <= 52 / 15)%R).
  { pose proof (PI_ineq 1) as [_ H].
    unfold sum_f_R0, tg_alt, PI_tg in H; simpl in H; lra. }
  assert (H17 : (ln (17 / 16) < 1 / 16)%R).
  { pose proof (exp_ineq1 (1 / 16) ltac:(lra)) as H.
    apply ln_increasing in H; [|lra].
    rewrite ln_exp in H.
    replace (17 / 16)%R with (1 + 1 / 16)%R by lra; exact H. }
  assert (Hln : (ln (2 * PI * 1) < 2)%R).
  { pose proof PI_gt_3.
    apply Rle_lt_trans with (ln ((17 / 16) ^ 32)).
    - apply ln_mono; [lra|].
      apply Rle_trans with (104 / 15)%R; lra.
    - rewrite ln_pow by lra.
      replace (INR 32) with 32%R by (simpl; lra); lra. }
  pose proof (Rinv_0_lt_compat _ H2).
  unfold Rdiv; nra.
Qed.

(** X10.  The shape of [log2_n_fact]: the approximation is negative at
    1 (an empty tree is charged [2*log2_n_fact(0 + 1.0)]), it never
    decreases from 1 on, and it is positive from 3 on. *)
Theorem log2_n_fact_shape (x y : R) :
  (1 <= x)%R -> (x <= y)%R ->
  (log2_n_fact 1 < 0)%R
  /\ (log2_n_fact x <= log2_n_fact y)%R
  /\ ((3 <= x)%R -> (0 < log2_n_fact x)%R).
Proof.
  intros Hx Hxy; split; [exact log2_n_fact_one|].
  split; [apply log2_n_fact_mono; assumption | apply log2_n_fact_pos].
Qed.

(** X11.  For an empty key set the estimate is negative: with no full
    tree the function returns [2*log2_n_fact(1.0) /
    TIME_FOR_COMPARE_ROWID] right after the tree-build term, and the
    Stirling formula is below zero at 1. *)
Theorem get_use_cost_no_keys (buffer : Z -> Z) (key_size mem : Z) :
  (0 < TIME_FOR_COMPARE_ROWID)%R ->
  0 < max_elements_in_tree key_size mem ->
  exists c,
    get_use_cost buffer 0 key_size mem = Some c /\ (c < 0)%R.
Proof.
  intros HT Hmx.
  rewrite (get_use_cost_single_run buffer 0 key_size mem) by lia.
  eexists; split; [reflexivity|].
  pose proof log2_n_fact_one as H1.
  replace (IZR 0 + 1)%R with 1%R by lra.
  pose proof (Rinv_0_lt_compat _ HT).
  unfold Rdiv; nra.
Qed.

(** ** The number of writes *)

(** X12.  Every key that reaches the temp store is written by one
    [my_b_write] call of its own: after any history the store holds at
    most as many keys as writes were issued, and after a failure-free
    history exactly as many, which is also the value of [elements]. *)
Theorem one_write_per_stored_key (disk : nat -> bool) (ops : list op)
  (sz mem : Z) :
  let r := run disk ops (Unique_new sz mem) in
  (length (contents (file (snd r))) <= write_calls (file (snd r)))%nat
  /\ (fst r = false ->
      write_calls (file (snd r)) = length (contents (file (snd r)))
      /\ elements (snd r) = Z.of_nat (write_calls (file (snd r)))).
Proof.
  cbv zeta.
  assert (Hgen : forall u,
            (length (contents (file u)) <= write_calls (file u))%nat ->
            (length (contents (file (snd (run disk ops u))))
             <= write_calls (file (snd (run disk ops u))))%nat
            /\ (fst (run disk ops u) = false ->
                (write_calls (file (snd (run disk ops u)))
                 - length (contents (file (snd (run disk ops u)))))%nat
                = (write_calls (file u) - length (contents (file u)))%nat)).
  { induction ops as [|o ops' IH]; intros u Hu; [simpl; auto|].
    cbn [run].
    destruct (step disk u o) as [e1 u1] eqn:E1.
    assert (Hu1 : (length (contents (file u1)) <= write_calls (file u1))%nat
                  /\ (e1 = false ->
                      (write_calls (file u1) - length (contents (file u1)))%nat
                      = (write_calls (file u) - length (contents (file u)))%nat)).
    { destruct o as [k|dyn_ok]; simpl in E1.
      - injection E1 as <- <-; simpl; auto.
      - pose proof (flush_writes_bound disk dyn_ok u Hu) as Hb.
        rewrite E1 in Hb; cbn [snd] in Hb.
        split; [assumption|].
        intros ->.
        pose proof (flush_ok_writes disk dyn_ok u u1 E1) as Hw.
        apply flush_ok_inv in E1 as (_ & _ & _ & _ & Hc).
        rewrite Hw, Hc, length_app; lia. }
    destruct Hu1 as [Hle Heq].
    specialize (IH u1 Hle).
    destruct (run disk ops' u1) as [e2 u2]; cbn [fst snd] in *.
    destruct IH as [IH1 IH2]; split; [assumption|].
    intros E; apply orb_false_iff in E as [-> ->].
    rewrite IH2, Heq; reflexivity. }
  destruct (Hgen (Unique_new sz mem)) as [H1 H2]; [simpl; lia|].
  split; [assumption|].
  intros Hrun; specialize (H2 Hrun); simpl in H2.
  destruct (store_layout_run disk sz ops _ (store_layout_new sz mem) Hrun)
    as (_ & He & _).
  split; [lia | rewrite He; f_equal; lia].
Qed.

End Uniques.

(** The key type is inferred from the comparator and the keys. *)
Arguments OpInsert {K} k.
Arguments OpFlush {K} dyn_ok.
Arguments mkSort {K} found_records record_pointers io_cache.
Arguments found_records {K} f.
Arguments record_pointers {K} f.
Arguments io_cache {K} f.
Arguments contents {K} i.
Arguments write_calls {K} i.
Arguments size {K} u.
Arguments elements {K} u.
Arguments tree {K} u.
Arguments file_ptrs {K} u.
Arguments file {K} u.
Arguments elements_in_tree {K} t.
Arguments Unique_new {K} sizeof_TREE_ELEMENT size_arg max_in_memory_size_arg.
Arguments flush {K} disk dyn_ok u.
Arguments merge_runs {K} ptr_compare sz store ptrs.
Arguments get {K} ptr_compare disk e u.
Arguments sort_result {K} t.
Arguments run {K} cmp disk ops u.
Arguments inserted {K} ops.
Arguments occurrences {K} cmp k l.
Arguments ascending {K} cmp l.

(** * Concrete instances

    Keys are integers; unless said otherwise the comparator and the
    merge both compare by subtraction, and every instance is a fresh
    [Unique] with 8-byte keys. *)



(** Witness of C2: two keys, no flush, the flat region is allocated. *)
Lemma get_in_memory_witness :
  let disk := fun _ : nat => true in
  let e := mkEnv true true true true true true true true true in
  let u := snd (run Z.sub disk (map (OpInsert) [2; 1])
                  (Unique_new mysql_sizeof_TREE_ELEMENT 8 1024)) in
  flat_alloc_ok e = true
  /\ file_ptrs u = []
  /\ get Z.sub disk e u =
       (false, u,
        mkSort (elements_in_tree (tree u))
          (Some (8 * elements_in_tree (tree u), tree u)) None)
  /\ ascending Z.sub (tree u)
  /\ write_calls (file u) = 0%nat.
Proof.
  intros disk e u.
  assert (Hanti : forall x y : Z, x - y < 0 <-> 0 < y - x) by (intros; lia).
  assert (Htrans : forall x y z : Z, x - y <= 0 -> y - z <= 0 -> x - z <= 0)
    by (intros; lia).
  assert (Ha : flat_alloc_ok e = true) by reflexivity.
  split; [exact Ha|].
  exact (get_in_memory Z Z.sub Z.sub mysql_sizeof_TREE_ELEMENT Hanti Htrans
           disk e [2; 1] 8 1024 Ha).
Defined.

(** Counterexample to C2: the Run Directory is empty, but the flat
    region cannot be allocated; [get] returns no flat region and has
    issued two writes to the temp store. *)
Lemma get_in_memory_needs_allocation :
  let disk := fun _ : nat => true in
  let e := mkEnv false true true true true true true true true in
  let u := snd (run Z.sub disk (map (OpInsert) [2; 1])
                  (Unique_new mysql_sizeof_TREE_ELEMENT 8 1024)) in
  let r := get Z.sub disk e u in
  file_ptrs u = []
  /\ record_pointers (snd r) = None
  /\ contents (file (snd (fst r))) = [1; 2]
  /\ write_calls (file (snd (fst r))) = 2%nat.
Proof. vm_compute; repeat split. Qed.

(** Witness of C3. *)
Lemma get_flat_alloc_failure_witness :
  let disk := fun _ : nat => true in
  let e := mkEnv false true true false true true true true true in
  let u := snd (run Z.sub disk (map (OpInsert) [2; 1])
                  (Unique_new mysql_sizeof_TREE_ELEMENT 8 1024)) in
  let r := get Z.sub disk e u in
  flat_alloc_ok e = false
  /\ fst (fst r) =
       (fst (flush disk (insert_dynamic_ok e) u)
        || negb (outfile_ok e) || negb (sort_buffer_ok e)
        || negb (merge_many_buff_ok e) || negb (file_reinit_ok e)
        || negb (merge_buffers_ok e)
        || negb (outfile_flush_ok e) || negb (outfile_reinit_ok e))
  /\ record_pointers (snd r) = None
  /\ (fst (fst r) = false ->
      let u1 := snd (flush disk (insert_dynamic_ok e) u) in
      io_cache (snd r)
      = Some (merge_runs Z.sub (size u1) (contents (file u1))
                (file_ptrs u1))).
Proof.
  intros disk e u r.
  assert (Ha : flat_alloc_ok e = false) by reflexivity.
  split; [exact Ha|].
  exact (get_flat_alloc_failure Z Z.sub disk e u Ha).
Defined.

(** Counterexample to C3: no run was spilled and the flat region cannot
    be allocated, yet [get] reports success; the result it presents was
    produced by the merge path. *)
Lemma get_falls_back_to_merge :
  let disk := fun _ : nat => true in
  let e := mkEnv false true true true true true true true true in
  let u := snd (run Z.sub disk (map (OpInsert) [2; 1])
                  (Unique_new mysql_sizeof_TREE_ELEMENT 8 1024)) in
  let r := get Z.sub disk e u in
  file_ptrs u = []
  /\ flat_alloc_ok e = false
  /\ fst (fst r) = false
  /\ io_cache (snd r) = Some [1; 2]
  /\ file_ptrs (snd (fst r)) = [mkBuffpek 0 2].
Proof. vm_compute; repeat split. Qed.

(** Witness of C4. *)
Lemma run_directory_invariant_witness :
  let disk := fun _ : nat => true in
  let ops :=
    [OpInsert 5; OpInsert 3; OpFlush true; OpInsert 4; OpFlush true] in
  let r := run Z.sub disk ops (Unique_new mysql_sizeof_TREE_ELEMENT 8 128) in
  0 < 8
  /\ file_ptrs (snd r) = [mkBuffpek 0 2; mkBuffpek 16 1]
  /\ non_overlapping 8 (file_ptrs (snd r))
  /\ (Forall (fun p => 0 < count p) (file_ptrs (snd r)) ->
      offsets_increasing (file_ptrs (snd r)))
  /\ (fst r = false -> sum_counts (file_ptrs (snd r)) = elements (snd r))
  /\ (forall dyn_ok (u u' : Unique Z),
        flush disk dyn_ok u = (true, u') -> file_ptrs u' = file_ptrs u).
Proof.
  intros disk ops r.
  assert (Hsz : 0 < 8) by lia.
  split; [exact Hsz|]; split; [vm_compute; reflexivity|].
  exact (run_directory_invariant Z Z.sub mysql_sizeof_TREE_ELEMENT disk ops
           8 128 Hsz).
Defined.

(** Counterexample to C4.  First history: the only write of the flush
    fails; the flush reports failure and the directory stays empty, but
    the [elements] counter has been advanced to 1.  Second history: two
    successful flushes of an empty tree record two runs at the same
    offset. *)
Lemma failed_flush_advances_elements :
  let r := run Z.sub (fun _ : nat => false) [OpInsert 1; OpFlush true]
             (Unique_new mysql_sizeof_TREE_ELEMENT 8 128) in
  let r' := run Z.sub (fun _ : nat => true) [OpFlush true; OpFlush true]
              (Unique_new mysql_sizeof_TREE_ELEMENT 8 128) in
  fst r = true
  /\ file_ptrs (snd r) = []
  /\ sum_counts (file_ptrs (snd r)) = 0
  /\ elements (snd r) = 1
  /\ fst r' = false
  /\ file_ptrs (snd r') = [mkBuffpek 0 0; mkBuffpek 0 0].
Proof. vm_compute; repeat split. Qed.

(** Witness of C9. *)
Lemma max_elements_in_tree_positive_witness :
  0 <= mysql_sizeof_TREE_ELEMENT
  /\ 0 < 8
  /\ ALIGN_SIZE (mysql_sizeof_TREE_ELEMENT + 8) <= 3200
  /\ 0 < max_elements_in_tree mysql_sizeof_TREE_ELEMENT 8 3200.
Proof.
  assert (H1 : 0 <= mysql_sizeof_TREE_ELEMENT) by (unfold mysql_sizeof_TREE_ELEMENT; lia).
  assert (H2 : 0 < 8) by lia.
  assert (H3 : ALIGN_SIZE (mysql_sizeof_TREE_ELEMENT + 8) <= 3200)
    by (vm_compute; discriminate).
  split; [exact H1|]; split; [exact H2|]; split; [exact H3|].
  exact (max_elements_in_tree_positive mysql_sizeof_TREE_ELEMENT 8 3200 H1 H2 H3).
Defined.

(** Counterexample to C9: a positive key size and a positive memory
    budget below the per-element overhead.  The divisor is zero and the
    estimate is undefined. *)
Lemma max_elements_in_tree_zero :
  0 < 8 /\ 0 < 1
  /\ max_elements_in_tree mysql_sizeof_TREE_ELEMENT 8 1 = 0
  /\ get_use_cost mysql_IO_SIZE mysql_MERGEBUFF mysql_MERGEBUFF2
       mysql_TIME_FOR_COMPARE_ROWID mysql_DISK_SEEK_BASE_COST
       mysql_sizeof_TREE_ELEMENT (fun _ => 0) 100 8 1 = None.
Proof. vm_compute; repeat split. Qed.

(** Witness of C10: twenty-one runs with the header's fan-in values. *)
Lemma merge_simulation_terminates_witness :
  4 < mysql_MERGEBUFF /\ 7 < mysql_MERGEBUFF2 /\ 0 <= 20 < 2 ^ 32
  /\ loop_bound mysql_MERGEBUFF 20 <> None
  /\ (forall st,
        maxbuffer st = 20 -> mysql_MERGEBUFF2 <= 20 ->
        exists st',
          merge_pass mysql_IO_SIZE mysql_MERGEBUFF mysql_TIME_FOR_COMPARE_ROWID
            (S (S (Z.to_nat 20))) 8 st = Some st'
          /\ next_maxbuffer mysql_MERGEBUFF 20 = Some (maxbuffer st')
          /\ 0 <= maxbuffer st' < 20)
  /\ exists cost,
       get_merge_many_buffs_cost mysql_IO_SIZE mysql_MERGEBUFF mysql_MERGEBUFF2
         mysql_TIME_FOR_COMPARE_ROWID (S (S (Z.to_nat 20))) (fun _ => 0)
         20 1000 500 8 = Some cost.
Proof.
  assert (H1 : 4 < mysql_MERGEBUFF) by reflexivity.
  assert (H2 : 7 < mysql_MERGEBUFF2) by reflexivity.
  assert (H3 : 0 <= 20 < 2 ^ 32) by (split; [discriminate | reflexivity]).
  assert (H4 : loop_bound mysql_MERGEBUFF 20 <> None)
    by (vm_compute; discriminate).
  split; [exact H1|]; split; [exact H2|]; split; [exact H3|].
  split; [exact H4|].
  exact (merge_simulation_terminates mysql_IO_SIZE mysql_MERGEBUFF
           mysql_MERGEBUFF2 mysql_TIME_FOR_COMPARE_ROWID (fun _ => 0)
           20 1000 500 8 H1 H2 H3 H4).
Defined.

(** Counterexample to C10: a run count of [2^31 + 9], which
    [get_use_cost] passes on for [2^31 + 9] keys and room for one key
    per tree ([n_full_trees] is then a negative [int], converted to the
    [uint] parameter).  As an [int] the run count is [-2^31 + 9], and
    subtracting [MERGEBUFF*3/2 = 10] from it gives [-2^31 - 1], below
    [INT_MIN]: the bound of the [for] loop overflows, the behaviour of
    the pass is undefined, and the simulation has no value, however
    many iterations it is allowed. *)
Lemma merge_simulation_overflows :
  0 <= 2147483657 < 2 ^ 32
  /\ mysql_MERGEBUFF2 <= 2147483657
  /\ int_of_uint 2147483657 = - 2 ^ 31 + 9
  /\ int_of_uint 2147483657 - mysql_MERGEBUFF * 3 / 2 = - 2 ^ 31 - 1
  /\ loop_bound mysql_MERGEBUFF 2147483657 = None
  /\ (forall fuel buffer max_n_elems last_n_elems elem_size,
        get_merge_many_buffs_cost mysql_IO_SIZE mysql_MERGEBUFF
          mysql_MERGEBUFF2 mysql_TIME_FOR_COMPARE_ROWID fuel buffer
          2147483657 max_n_elems last_n_elems elem_size = None)
  /\ (forall buffer,
        max_elements_in_tree mysql_sizeof_TREE_ELEMENT 8 32 = 1
        /\ get_use_cost mysql_IO_SIZE mysql_MERGEBUFF mysql_MERGEBUFF2
             mysql_TIME_FOR_COMPARE_ROWID mysql_DISK_SEEK_BASE_COST
             mysql_sizeof_TREE_ELEMENT buffer 2147483657 8 32 = None).
Proof.
  assert (Hb : loop_bound mysql_MERGEBUFF 2147483657 = None)
    by (vm_compute; reflexivity).
  assert (Hc : forall fuel buffer max_n_elems last_n_elems elem_size,
            get_merge_many_buffs_cost mysql_IO_SIZE mysql_MERGEBUFF
              mysql_MERGEBUFF2 mysql_TIME_FOR_COMPARE_ROWID fuel buffer
              2147483657 max_n_elems last_n_elems elem_size = None).
  { intros fuel buffer max_n_elems last_n_elems elem_size.
    unfold get_merge_many_buffs_cost.
    rewrite (merge_passes_undefined mysql_IO_SIZE mysql_MERGEBUFF
               mysql_MERGEBUFF2 mysql_TIME_FOR_COMPARE_ROWID elem_size fuel
               (sim_init buffer 2147483657 max_n_elems last_n_elems) Hb);
      [reflexivity | vm_compute; discriminate]. }
  split; [split; [discriminate | reflexivity]|].
  split; [vm_compute; discriminate|].
  split; [vm_compute; reflexivity|].
  split; [vm_compute; reflexivity|].
  split; [exact Hb|]; split; [exact Hc|].
  intros buffer; split; [vm_compute; reflexivity|].
  unfold get_use_cost.
  change (max_elements_in_tree mysql_sizeof_TREE_ELEMENT 8 32) with 1.
  change (1 =? 0) with false; cbv iota.
  change (int_of_uint (2147483657 / 1)) with (-2147483639).
  change (-2147483639 =? 0) with false; cbv iota.
  change (uint (-2147483639)) with 2147483657.
  rewrite Hc; reflexivity.
Qed.

(** ** The estimator on concrete inputs

    [nkeys = 250], [key_size = 8] and [max_in_memory_size = 3200] give
    trees of 100 elements: two full trees and a last tree of 50. *)

(** C5.  On that input the code charges
    [2*log2_n_fact(51) + 2*log2_n_fact(101)] comparisons (once
    [log2_n_fact(101)] per full tree), which is less than the
    [2*log2_n_fact(51) + 2*2*log2_n_fact(101)] the specification and the
    function's own comment state. *)
Theorem create_trees_cost_misses_factor :
  max_elements_in_tree mysql_sizeof_TREE_ELEMENT 8 3200 = 100
  /\ 250 / 100 = 2 /\ 250 mod 100 = 50
  /\ (create_trees_cost mysql_TIME_FOR_COMPARE_ROWID 2 100 50
      = (2 * log2_n_fact (50 + 1) + 2 * log2_n_fact (100 + 1)) / 10)%R
  /\ (create_trees_cost_spec mysql_TIME_FOR_COMPARE_ROWID 2 100 50
      = (2 * (2 * log2_n_fact (100 + 1)) + 2 * log2_n_fact (50 + 1)) / 10)%R
  /\ (create_trees_cost mysql_TIME_FOR_COMPARE_ROWID 2 100 50
      < create_trees_cost_spec mysql_TIME_FOR_COMPARE_ROWID 2 100 50)%R.
Proof.
  split; [reflexivity|]; split; [reflexivity|]; split; [reflexivity|].
  split; [reflexivity|]; split; [reflexivity|].
  pose proof (create_trees_cost_gap mysql_TIME_FOR_COMPARE_ROWID 2 100 50
                ltac:(discriminate)) as Hgap.
  pose proof (log2_n_fact_pos (100 + 1) ltac:(lra)) as Hpos.
  unfold mysql_TIME_FOR_COMPARE_ROWID in *.
  lra.
Qed.

(** C6.  On the same input a full tree takes 800 bytes and the last
    tree 400, less than one I/O block each.  The code adds no write
    cost at all, since the integer quotients are 0; the specification's
    formula gives one block per run, 3 in total. *)
Theorem write_trees_cost_truncates :
  ulong (8 * 100) / mysql_IO_SIZE = 0
  /\ ulong (8 * 50) / mysql_IO_SIZE = 0
  /\ write_trees_cost mysql_IO_SIZE mysql_DISK_SEEK_BASE_COST 2 100 50 8 = 0%R
  /\ write_trees_cost_spec mysql_IO_SIZE 2 100 50 8 = 3%R.
Proof.
  split; [reflexivity|]; split; [reflexivity|]; split.
  - rewrite write_trees_cost_floor.
    change (ulong (8 * 100) / mysql_IO_SIZE) with 0.
    change (ulong (8 * 50) / mysql_IO_SIZE) with 0.
    lra.
  - unfold write_trees_cost_spec, ceil, mysql_IO_SIZE.
    change (8 * 100) with 800; change (8 * 50) with 400.
    rewrite (Zceil_eq 1 (800 / 4096)%R) by lra.
    rewrite (Zceil_eq 1 (400 / 4096)%R) by lra.
    lra.
Qed.

(** C7.  Sixteen runs ([maxbuffer = 15]) of 1000 elements, the last of
    500.  One pass performs two collapses ([lastbuff] has advanced by
    two strides, to address 8), but the code then continues with
    [maxbuffer = 7], that is eight runs, and those eight slots do not
    hold the two merged runs: the totals 7000 and 8500 were stored in
    slots 6 and 15.  The final collapse is therefore charged for 14000
    elements in 8 runs, where one run per collapse would give 15500
    elements in 2 runs. *)
Theorem merge_pass_keeps_eight_runs :
  let st :=
    merge_pass mysql_IO_SIZE mysql_MERGEBUFF mysql_TIME_FOR_COMPARE_ROWID
      17 8 (sim_init (fun _ => 0) 15 1000 500) in
  option_map lastbuff st = Some (2 * sizeof_uint)
  /\ option_map maxbuffer st = Some 7
  /\ option_map (fun s => map (buff_elems s) [0; 1; 2; 3; 4; 5; 6; 7]) st
     = Some [1000; 1000; 1000; 1000; 1000; 1000; 7000; 1000]
  /\ option_map (fun s => buff_elems s 15) st = Some 8500
  /\ option_map
       (fun s => sum_elems (buff_elems s) 0 (Z.to_nat (maxbuffer s - 0 + 1)) 0)
       st
     = Some 14000.
Proof. repeat split. Qed.


(** The slip of C5 at a run boundary, which C8 as amended leaves out.
    With 32 MB a tree holds [2^20] keys of 8 bytes.  [2^20 - 1] keys
    make one tree, charged [2*log2_n_fact(2^20)] comparisons; one key
    more fills a full tree, which the code charges [log2_n_fact] once
    instead of twice, and the estimate drops although a merge is
    added. *)
Lemma run_boundary_lowers_estimate :
  let cost :=
    get_use_cost mysql_IO_SIZE mysql_MERGEBUFF mysql_MERGEBUFF2
      mysql_TIME_FOR_COMPARE_ROWID mysql_DISK_SEEK_BASE_COST
      mysql_sizeof_TREE_ELEMENT (fun _ => 0) in
  max_elements_in_tree mysql_sizeof_TREE_ELEMENT 8 33554432 = 1048576
  /\ exists cA cB,
       cost 1048575 8 33554432 = Some cA
       /\ cost 1048576 8 33554432 = Some cB
       /\ (cB < cA)%R.
Proof.
  intros cost; subst cost.
  split; [reflexivity|].
  pose proof ln2_pos as Hln2.
  pose proof PI_4 as Hpi4; pose proof PI_gt_3 as Hpi3.
  assert (HA : 0 <= 1048575 < max_elements_in_tree mysql_sizeof_TREE_ELEMENT
                                 8 33554432)
    by (split; [discriminate | reflexivity]).
  assert (Hw : (ln 2 / (10 * ln 2) = 1 / 10)%R) by (field; lra).
  eexists; eexists; split; [|split].
  - apply get_use_cost_single_run; exact HA.
  - apply (get_use_cost_few_runs mysql_IO_SIZE mysql_MERGEBUFF
             mysql_MERGEBUFF2 mysql_TIME_FOR_COMPARE_ROWID
             mysql_DISK_SEEK_BASE_COST mysql_sizeof_TREE_ELEMENT
             (fun _ => 0) 1048576 8 33554432 1048576 1 0
             (2 * (1048576 * 8) / 4096 + 1048576 * ln 2 / (10 * ln 2))%R);
      try reflexivity; try discriminate.
    unfold Rdiv in *; nra.
  - rewrite write_trees_cost_floor.
    change (ulong (8 * 1048576) / mysql_IO_SIZE) with 2048.
    change (ulong (8 * 0) / mysql_IO_SIZE) with 0.
    replace (8 * 1048576 / IZR mysql_IO_SIZE)%R with (IZR 2048)
      by (unfold mysql_IO_SIZE; lra).
    rewrite ceil_IZR.
    unfold create_trees_cost; cbn [Z.eqb].
    pose proof (log2_n_fact_upper (0 + 1) 3 0 ltac:(lra) ltac:(simpl; lra)
                  ltac:(simpl; lra)) as H1.
    pose proof (log2_n_fact_upper (1048576 + 1) 24 21 ltac:(lra)
                  ltac:(simpl; lra) ltac:(simpl; lra)) as H2.
    pose proof (log2_n_fact_lower (1048575 + 1) 20 ltac:(lra)
                  ltac:(simpl; lra)) as H3.
    replace (INR 3) with 3%R in H1 by (simpl; lra).
    replace (INR 0) with 0%R in H1 by reflexivity.
    replace (INR 24) with 24%R in H2 by (rewrite INR_IZR_INZ; reflexivity).
    replace (INR 21) with 21%R in H2 by (rewrite INR_IZR_INZ; reflexivity).
    replace (INR 20) with 20%R in H3 by (rewrite INR_IZR_INZ; reflexivity).
    unfold mysql_TIME_FOR_COMPARE_ROWID, mysql_DISK_SEEK_BASE_COST.
    unfold Rdiv in Hw |- *; lra.
Qed.


(** * Instances of the further properties *)

Arguments my_b_tell {K} u.
Arguments read_run {K} sz store p.
Arguments step {K} cmp disk u o.

(** Witness of X1: a tree with the keys 1 and 2 is flushed to an empty
    store. *)
Lemma flush_success_effect_witness :
  let disk := fun _ : nat => true in
  let u := snd (run Z.sub disk [OpInsert 2; OpInsert 1]
                  (Unique_new mysql_sizeof_TREE_ELEMENT 8 128)) in
  let u' := snd (flush disk true u) in
  flush disk true u = (false, u')
  /\ contents (file u') = contents (file u) ++ tree u
  /\ write_calls (file u') = (write_calls (file u) + length (tree u))%nat
  /\ my_b_tell u' = my_b_tell u + size u * elements_in_tree (tree u)
  /\ file_ptrs u'
     = file_ptrs u ++ [mkBuffpek (my_b_tell u) (elements_in_tree (tree u))]
  /\ elements u' = elements u + elements_in_tree (tree u)
  /\ tree u' = []
  /\ size u' = size u.
Proof.
  intros disk u u'.
  assert (H : flush disk true u = (false, u')) by (vm_compute; reflexivity).
  split; [exact H|].
  exact (flush_success_effect Z disk true u u' H).
Defined.

(** Witness of X2: three keys, the second write fails. *)
Lemma flush_failure_effect_witness :
  let disk := fun n : nat => Nat.eqb n 0 in
  let u := snd (run Z.sub disk [OpInsert 3; OpInsert 1; OpInsert 2]
                  (Unique_new mysql_sizeof_TREE_ELEMENT 8 128)) in
  let u' := snd (flush disk true u) in
  flush disk true u = (true, u')
  /\ tree u' = tree u
  /\ file_ptrs u' = file_ptrs u
  /\ exists written rest,
       tree u = written ++ rest
       /\ contents (file u') = contents (file u) ++ written
       /\ (true = true ->
           rest <> []
           /\ write_calls (file u')
              = (write_calls (file u) + length written + 1)%nat).
Proof.
  intros disk u u'.
  assert (H : flush disk true u = (true, u')) by (vm_compute; reflexivity).
  split; [exact H|].
  exact (flush_failure_effect Z disk true u u' H).
Defined.

(** Witness of X3: the run of a second flush is read back. *)
Lemma flush_run_reads_back_witness :
  let disk := fun _ : nat => true in
  let u := snd (run Z.sub disk [OpInsert 5; OpFlush true; OpInsert 4; OpInsert 3]
                  (Unique_new mysql_sizeof_TREE_ELEMENT 8 128)) in
  let u' := snd (flush disk true u) in
  0 < size u
  /\ flush disk true u = (false, u')
  /\ exists p,
       file_ptrs u' = file_ptrs u ++ [p]
       /\ read_run (size u') (contents (file u')) p = tree u.
Proof.
  intros disk u u'.
  assert (H0 : 0 < size u) by (vm_compute; reflexivity).
  assert (H : flush disk true u = (false, u')) by (vm_compute; reflexivity).
  split; [exact H0|]; split; [exact H|].
  exact (flush_run_reads_back Z disk true u u' H0 H).
Defined.

(** Witness of X4: a recorded run of two keys survives a further
    flush. *)
Lemma recorded_runs_immutable_witness :
  let disk := fun _ : nat => true in
  let ops := [OpInsert 3; OpInsert 1; OpFlush true; OpInsert 2] in
  let p := mkBuffpek 0 2 in
  let u := snd (run Z.sub disk ops
                  (Unique_new mysql_sizeof_TREE_ELEMENT 8 128)) in
  let u' := snd (step Z.sub disk u (OpFlush true)) in
  0 < 8
  /\ In p (file_ptrs u)
  /\ In p (file_ptrs u')
  /\ read_run 8 (contents (file u')) p = read_run 8 (contents (file u)) p.
Proof.
  intros disk ops p u u'.
  assert (H0 : 0 < 8) by reflexivity.
  assert (H : In p (file_ptrs u)) by (vm_compute; left; reflexivity).
  split; [exact H0|]; split; [exact H|].
  exact (recorded_runs_immutable Z Z.sub mysql_sizeof_TREE_ELEMENT disk ops
           (OpFlush true) 8 128 p H0 H).
Defined.

(** Witness of X5: three runs, the last one empty. *)
Lemma directory_covers_store_witness :
  let disk := fun _ : nat => true in
  let ops :=
    [OpInsert 5; OpInsert 3; OpFlush true; OpInsert 4; OpFlush true;
     OpFlush true; OpInsert 9] in
  let u := snd (run Z.sub disk ops
                  (Unique_new mysql_sizeof_TREE_ELEMENT 8 128)) in
  0 < 8
  /\ fst (run Z.sub disk ops (Unique_new mysql_sizeof_TREE_ELEMENT 8 128))
     = false
  /\ concat (map (read_run 8 (contents (file u))) (file_ptrs u))
     = contents (file u)
  /\ Forall (fun p => count p
                      = Z.of_nat (length (read_run 8 (contents (file u)) p)))
       (file_ptrs u)
  /\ my_b_tell u = 8 * elements u.
Proof.
  intros disk ops u.
  assert (H0 : 0 < 8) by reflexivity.
  assert (H : fst (run Z.sub disk ops
                     (Unique_new mysql_sizeof_TREE_ELEMENT 8 128)) = false)
    by (vm_compute; reflexivity).
  split; [exact H0|]; split; [exact H|].
  exact (directory_covers_store Z Z.sub mysql_sizeof_TREE_ELEMENT disk ops
           8 128 H0 H).
Defined.

(** Witness of X6: a flush of the empty tree, then two insertions.  The
    directory holds one (empty) run, the store position is 0, and [get]
    returns the flat region. *)
Lemma found_records_bounds_result_witness :
  let ops := [OpFlush true; OpInsert 2; OpInsert 1] in
  let disk := fun _ : nat => true in
  let e := mkEnv true true true true true true true true true in
  let u := snd (run Z.sub disk ops
                  (Unique_new mysql_sizeof_TREE_ELEMENT 8 128)) in
  let u' := snd (fst (get Z.sub disk e u)) in
  let t := snd (get Z.sub disk e u) in
  0 < 8
  /\ fst (run Z.sub disk ops (Unique_new mysql_sizeof_TREE_ELEMENT 8 128))
     = false
  /\ get Z.sub disk e u = (false, u', t)
  /\ file_ptrs u = [mkBuffpek 0 0]
  /\ (forall e0 u0,
        found_records (snd (get Z.sub disk e0 u0))
        = elements u0 + elements_in_tree (tree u0))
  /\ found_records t = elements u + elements_in_tree (tree u)
  /\ Z.of_nat (length (sort_result t)) <= found_records t
  /\ (my_b_tell u = 0 -> flat_alloc_ok e = true ->
      record_pointers t = Some (8 * elements_in_tree (tree u), tree u)
      /\ io_cache t = None
      /\ Z.of_nat (length (sort_result t)) = found_records t)
  /\ (my_b_tell u <> 0 \/ flat_alloc_ok e = false ->
      record_pointers t = None /\ exists out, io_cache t = Some out).
Proof.
  intros ops disk e u u' t.
  assert (H0 : 0 < 8) by reflexivity.
  assert (H : fst (run Z.sub disk ops
                     (Unique_new mysql_sizeof_TREE_ELEMENT 8 128)) = false)
    by (vm_compute; reflexivity).
  assert (Hget : get Z.sub disk e u = (false, u', t))
    by (vm_compute; reflexivity).
  split; [exact H0|]; split; [exact H|]; split; [exact Hget|].
  split; [vm_compute; reflexivity|].
  exact (found_records_bounds_result Z Z.sub Z.sub mysql_sizeof_TREE_ELEMENT
           disk e ops 8 128 u' t H0 H Hget).
Defined.

(** Witness of X7: 250 keys of 8 bytes with room for 100 per tree. *)
Lemma get_use_cost_sums_all_terms_witness :
  let mx := max_elements_in_tree mysql_sizeof_TREE_ELEMENT 8 3200 in
  let n := 250 / mx in
  let last := 250 mod mx in
  4 < mysql_MERGEBUFF /\ 7 < mysql_MERGEBUFF2
  /\ 0 < mysql_IO_SIZE /\ (0 < mysql_TIME_FOR_COMPARE_ROWID)%R
  /\ 0 <= mysql_sizeof_TREE_ELEMENT /\ 0 < 8
  /\ ALIGN_SIZE (mysql_sizeof_TREE_ELEMENT + 8) <= 3200
  /\ 0 <= 250
  /\ 250 / max_elements_in_tree mysql_sizeof_TREE_ELEMENT 8 3200 < 2 ^ 31
  /\ exists r,
       get_use_cost mysql_IO_SIZE mysql_MERGEBUFF mysql_MERGEBUFF2
         mysql_TIME_FOR_COMPARE_ROWID mysql_DISK_SEEK_BASE_COST
         mysql_sizeof_TREE_ELEMENT (fun _ => 0) 250 8 3200 = Some r
       /\ (n = 0 ->
           r = create_trees_cost mysql_TIME_FOR_COMPARE_ROWID 0 mx last)
       /\ (n <> 0 ->
           exists merge_cost,
             get_merge_many_buffs_cost mysql_IO_SIZE mysql_MERGEBUFF
               mysql_MERGEBUFF2 mysql_TIME_FOR_COMPARE_ROWID
               (S (S (Z.to_nat n))) (fun _ => 0)
               n (uint mx) (uint last) (int_of_uint 8) = Some merge_cost
             /\ (0 <= merge_cost)%R
             /\ r = (create_trees_cost mysql_TIME_FOR_COMPARE_ROWID n mx last
                     + write_trees_cost mysql_IO_SIZE
                         mysql_DISK_SEEK_BASE_COST n mx last 8
                     + merge_cost
                     + ceil (IZR 8 * IZR 250 / IZR mysql_IO_SIZE))%R).
Proof.
  intros mx n last.
  assert (H1 : 4 < mysql_MERGEBUFF) by reflexivity.
  assert (H2 : 7 < mysql_MERGEBUFF2) by reflexivity.
  assert (H3 : 0 < mysql_IO_SIZE) by reflexivity.
  assert (H4 : (0 < mysql_TIME_FOR_COMPARE_ROWID)%R)
    by (unfold mysql_TIME_FOR_COMPARE_ROWID; lra).
  assert (H5 : 0 <= mysql_sizeof_TREE_ELEMENT) by discriminate.
  assert (H6 : 0 < 8) by reflexivity.
  assert (H7 : ALIGN_SIZE (mysql_sizeof_TREE_ELEMENT + 8) <= 3200)
    by (vm_compute; discriminate).
  assert (H8 : 0 <= 250) by discriminate.
  assert (H9 : 250 / max_elements_in_tree mysql_sizeof_TREE_ELEMENT 8 3200
               < 2 ^ 31) by reflexivity.
  split; [exact H1|]; split; [exact H2|]; split; [exact H3|].
  split; [exact H4|]; split; [exact H5|]; split; [exact H6|].
  split; [exact H7|]; split; [exact H8|]; split; [exact H9|].
  exact (get_use_cost_sums_all_terms mysql_IO_SIZE mysql_MERGEBUFF
           mysql_MERGEBUFF2 mysql_TIME_FOR_COMPARE_ROWID
           mysql_DISK_SEEK_BASE_COST mysql_sizeof_TREE_ELEMENT (fun _ => 0)
           250 8 3200 H1 H2 H3 H4 H5 H6 H7 H8 H9).
Defined.

(** Witness of X8: sixteen runs (two merge passes), a zeroed buffer and
    a buffer holding other values. *)
Lemma get_use_cost_ignores_buffer_witness :
  4 < mysql_MERGEBUFF /\ 7 < mysql_MERGEBUFF2
  /\ 0 <= 15500 / max_elements_in_tree mysql_sizeof_TREE_ELEMENT 8 32000
     < 2 ^ 31
  /\ get_use_cost mysql_IO_SIZE mysql_MERGEBUFF mysql_MERGEBUFF2
       mysql_TIME_FOR_COMPARE_ROWID mysql_DISK_SEEK_BASE_COST
       mysql_sizeof_TREE_ELEMENT (fun _ => 0) 15500 8 32000
     = get_use_cost mysql_IO_SIZE mysql_MERGEBUFF mysql_MERGEBUFF2
         mysql_TIME_FOR_COMPARE_ROWID mysql_DISK_SEEK_BASE_COST
         mysql_sizeof_TREE_ELEMENT (fun j => j + 7) 15500 8 32000.
Proof.
  assert (H1 : 4 < mysql_MERGEBUFF) by reflexivity.
  assert (H2 : 7 < mysql_MERGEBUFF2) by reflexivity.
  assert (H3 : 0 <= 15500 / max_elements_in_tree mysql_sizeof_TREE_ELEMENT
                              8 32000 < 2 ^ 31)
    by (split; [discriminate | reflexivity]).
  split; [exact H1|]; split; [exact H2|]; split; [exact H3|].
  exact (get_use_cost_ignores_buffer mysql_IO_SIZE mysql_MERGEBUFF
           mysql_MERGEBUFF2 mysql_TIME_FOR_COMPARE_ROWID
           mysql_DISK_SEEK_BASE_COST mysql_sizeof_TREE_ELEMENT
           (fun _ => 0) (fun j => j + 7) 15500 8 32000 H1 H2 H3).
Defined.

(** Witness of X9: 250 keys of 8 bytes in two full trees and a last
    one. *)
Lemma get_use_cost_single_merge_witness :
  let mx := max_elements_in_tree mysql_sizeof_TREE_ELEMENT 8 3200 in
  let n := 250 / mx in
  (0 < mysql_TIME_FOR_COMPARE_ROWID)%R /\ 0 < mysql_IO_SIZE
  /\ mysql_MERGEBUFF2 <= 2 ^ 31
  /\ 0 <= 8 < 2 ^ 31
  /\ 0 <= 250 < 2 ^ 32
  /\ 0 < max_elements_in_tree mysql_sizeof_TREE_ELEMENT 8 3200
  /\ 0 < 250 / max_elements_in_tree mysql_sizeof_TREE_ELEMENT 8 3200
     < mysql_MERGEBUFF2
  /\ get_use_cost mysql_IO_SIZE mysql_MERGEBUFF mysql_MERGEBUFF2
       mysql_TIME_FOR_COMPARE_ROWID mysql_DISK_SEEK_BASE_COST
       mysql_sizeof_TREE_ELEMENT (fun _ => 0) 250 8 3200
     = Some (create_trees_cost mysql_TIME_FOR_COMPARE_ROWID n mx (250 mod mx)
             + write_trees_cost mysql_IO_SIZE mysql_DISK_SEEK_BASE_COST
                 n mx (250 mod mx) 8
             + (2 * (IZR 250 * IZR 8) / IZR mysql_IO_SIZE
                + IZR 250 * ln (IZR (n + 1))
                  / (mysql_TIME_FOR_COMPARE_ROWID * ln 2))
             + ceil (IZR 8 * IZR 250 / IZR mysql_IO_SIZE))%R.
Proof.
  intros mx n.
  assert (H1 : (0 < mysql_TIME_FOR_COMPARE_ROWID)%R)
    by (unfold mysql_TIME_FOR_COMPARE_ROWID; lra).
  assert (H2 : 0 < mysql_IO_SIZE) by reflexivity.
  assert (H3 : mysql_MERGEBUFF2 <= 2 ^ 31) by discriminate.
  assert (H4 : 0 <= 8 < 2 ^ 31) by (split; [discriminate | reflexivity]).
  assert (H5 : 0 <= 250 < 2 ^ 32) by (split; [discriminate | reflexivity]).
  assert (H6 : 0 < max_elements_in_tree mysql_sizeof_TREE_ELEMENT 8 3200)
    by reflexivity.
  assert (H7 : 0 < 250 / max_elements_in_tree mysql_sizeof_TREE_ELEMENT 8 3200
               < mysql_MERGEBUFF2) by (split; reflexivity).
  split; [exact H1|]; split; [exact H2|]; split; [exact H3|].
  split; [exact H4|]; split; [exact H5|]; split; [exact H6|].
  split; [exact H7|].
  exact (get_use_cost_single_merge mysql_IO_SIZE mysql_MERGEBUFF
           mysql_MERGEBUFF2 mysql_TIME_FOR_COMPARE_ROWID
           mysql_DISK_SEEK_BASE_COST mysql_sizeof_TREE_ELEMENT (fun _ => 0)
           250 8 3200 H1 H2 H3 H4 H5 H6 H7).
Defined.

(** Witness of X10. *)
Lemma log2_n_fact_shape_witness :
  (1 <= 3)%R /\ (3 <= 4)%R
  /\ (log2_n_fact 1 < 0)%R
  /\ (log2_n_fact 3 <= log2_n_fact 4)%R
  /\ ((3 <= 3)%R -> (0 < log2_n_fact 3)%R).
Proof.
  assert (H1 : (1 <= 3)%R) by lra.
  assert (H2 : (3 <= 4)%R) by lra.
  split; [exact H1|]; split; [exact H2|].
  exact (log2_n_fact_shape 3 4 H1 H2).
Defined.

(** Witness of X11: no keys, 8-byte keys, room for 100 per tree. *)
Lemma get_use_cost_no_keys_witness :
  (0 < mysql_TIME_FOR_COMPARE_ROWID)%R
  /\ 0 < max_elements_in_tree mysql_sizeof_TREE_ELEMENT 8 3200
  /\ exists c,
       get_use_cost mysql_IO_SIZE mysql_MERGEBUFF mysql_MERGEBUFF2
         mysql_TIME_FOR_COMPARE_ROWID mysql_DISK_SEEK_BASE_COST
         mysql_sizeof_TREE_ELEMENT (fun _ => 0) 0 8 3200 = Some c
       /\ (c < 0)%R.
Proof.
  assert (H1 : (0 < mysql_TIME_FOR_COMPARE_ROWID)%R)
    by (unfold mysql_TIME_FOR_COMPARE_ROWID; lra).
  assert (H2 : 0 < max_elements_in_tree mysql_sizeof_TREE_ELEMENT 8 3200)
    by reflexivity.
  split; [exact H1|]; split; [exact H2|].
  exact (get_use_cost_no_keys mysql_IO_SIZE mysql_MERGEBUFF
           mysql_MERGEBUFF2 mysql_TIME_FOR_COMPARE_ROWID
           mysql_DISK_SEEK_BASE_COST mysql_sizeof_TREE_ELEMENT (fun _ => 0)
           8 3200 H1 H2).
Defined.
